(** * GrilleCipher: the scattered placement engine of [GrilleCipher.py]

    A shallow embedding of the letter grid, the placement function
    [place_word_scattered], the commit step [apply_word_to_grid], the
    placement loop of the main program and the Cricut export of the masks,
    followed by the properties of the design specification that concern
    them and by further properties of the code.

    Python values are modelled as follows.
    - an [int] is a [Z];
    - a character is its Unicode code point, a [str] is a list of them;
    - a coordinate [(r, c)] is a pair of integers;
    - the grid (a list of row lists) is a [list (list char)]; the rows are
      separate objects in the program (built by a list comprehension), so the
      grid is a value;
    - the sets [forbidden], [chosen] and the masks are [gset]s of coordinates;
    - the process-wide random source is a tape of raw draws with a cursor;
    - the mutable objects shared between the functions (the grid, the set
      [forbidden], the random source) live in a [world] that every function
      threads; exceptions and non-termination are results. *)

From Stdlib Require Import ZArith Lia.
From stdpp Require Import base decidable option list sets gmap sorting strings pretty.

Local Open Scope Z_scope.

(** ** Data model *)

Definition char := N.
Abbreviation str := (list char).
Abbreviation coord := (Z * Z)%type.

(** The random source: [tape i] is the raw value of the [i]-th draw made
    since the source was seeded, [cursor] counts the draws made so far. *)
Record rng_state := MkRng { tape : N -> N; cursor : N }.

Record world := MkWorld {
  w_grid : list (list char);
  w_forbidden : gset coord;
  w_random : rng_state
}.

Definition with_grid (g : list (list char)) (w : world) : world :=
  MkWorld g (w_forbidden w) (w_random w).
Definition with_forbidden (f : gset coord) (w : world) : world :=
  MkWorld (w_grid w) f (w_random w).
Definition with_random (r : rng_state) (w : world) : world :=
  MkWorld (w_grid w) (w_forbidden w) r.

(** ** Results: a value, a Python exception, or a loop that ran out of fuel *)

Inductive exn :=
| RuntimeError (word : str)   (* "Could not find positions for word ..." *)
| ValueError                  (* random.randint on an empty range *)
| IndexError.                 (* list index out of range *)

Inductive result (A : Type) :=
| Done (a : A)
| Raise (e : exn)
| OutOfFuel.
Arguments Done {A} a.
Arguments Raise {A} e.
Arguments OutOfFuel {A}.

Definition M (A : Type) : Type := world -> result A * world.

Definition ret {A} (a : A) : M A := fun w => (Done a, w).
Definition raise {A} (e : exn) : M A := fun w => (Raise e, w).
Definition out_of_fuel {A} : M A := fun w => (OutOfFuel, w).
Definition bind {A B} (m : M A) (k : A -> M B) : M B :=
  fun w =>
    match m w with
    | (Done a, w') => k a w'
    | (Raise e, w') => (Raise e, w')
    | (OutOfFuel, w') => (OutOfFuel, w')
    end.

Notation "x <~ m ;; k" := (bind m (fun x => k))
  (at level 100, m at next level, right associativity).
Notation "m ;;; k" := (bind m (fun _ => k))
  (at level 100, right associativity).

(** ** Python list indexing, with negative indices and IndexError *)

Definition py_index {A} (l : list A) (i : Z) : option nat :=
  let n := Z.of_nat (length l) in
  if i <? 0 then (if 0 <=? n + i then Some (Z.to_nat (n + i)) else None)
  else (if i <? n then Some (Z.to_nat i) else None).

Definition py_getitem {A} (l : list A) (i : Z) : option A :=
  match py_index l i with
  | Some k => l !! k
  | None => None
  end.

Definition py_setitem {A} (l : list A) (i : Z) (x : A) : option (list A) :=
  match py_index l i with
  | Some k => Some (<[k := x]> l)
  | None => None
  end.

(** [g[r][c]] as a pure read *)
Definition grid_read (g : list (list char)) (rc : coord) : option char :=
  match py_getitem g (fst rc) with
  | Some row => py_getitem row (snd rc)
  | None => None
  end.

(** [g[r][c] = ch] as a pure update *)
Definition grid_write (g : list (list char)) (rc : coord) (ch : char)
  : option (list (list char)) :=
  match py_getitem g (fst rc) with
  | Some row =>
      match py_setitem row (snd rc) ch with
      | Some row' => py_setitem g (fst rc) row'
      | None => None
      end
  | None => None
  end.

(** ** Primitive operations on the world *)

(** [existing = grid[r][c]] *)
Definition grid_get (rc : coord) : M char :=
  fun w =>
    match grid_read (w_grid w) rc with
    | Some ch => (Done ch, w)
    | None => (Raise IndexError, w)
    end.

(** [grid[r][c] = ch] *)
Definition grid_set (rc : coord) (ch : char) : M unit :=
  fun w =>
    match grid_write (w_grid w) rc ch with
    | Some g => (Done tt, with_grid g w)
    | None => (Raise IndexError, w)
    end.

(** [(r, c) in forbidden] *)
Definition in_forbidden (rc : coord) : M bool :=
  fun w => (Done (bool_decide (rc ∈ w_forbidden w)), w).

(** [forbidden.update(positions)] *)
Definition forbidden_update (positions : list coord) : M unit :=
  fun w => (Done tt, with_forbidden (w_forbidden w ∪ list_to_set positions) w).

(** One draw below [n] (for [0 < n]): the next raw value of the tape,
    reduced into [0, n). *)
Definition randbelow (n : Z) : M Z :=
  fun w =>
    let r := w_random w in
    (Done (Z.of_N (tape r (cursor r)) mod n),
     with_random (MkRng (tape r) (N.succ (cursor r))) w).

(** [random.randint(a, b)]: an integer in [a, b]; ValueError when the range
    is empty. *)
Definition randint (a b : Z) : M Z :=
  if b - a + 1 <=? 0 then raise ValueError
  else k <~ randbelow (b - a + 1);; ret (a + k).

(** [random.choice(seq)] *)
Definition choice {A} (seq : list A) : M A :=
  if decide (seq = []) then raise IndexError
  else
    k <~ randbelow (Z.of_nat (length seq));;
    match seq !! Z.to_nat k with
    | Some x => ret x
    | None => raise IndexError
    end.

(** ** Helper functions of the program *)

(** [string.ascii_uppercase + "ÄÖÜß"] as code points *)
Definition letters : str :=
  [65; 66; 67; 68; 69; 70; 71; 72; 73; 74; 75; 76; 77; 78; 79; 80; 81; 82;
   83; 84; 85; 86; 87; 88; 89; 90; 196; 214; 220; 223]%N.

(** [[m for _ in range(n)]] *)
Fixpoint repeatM {A} (n : nat) (m : M A) : M (list A) :=
  match n with
  | O => ret []
  | S n' => x <~ m;; xs <~ repeatM n' m;; ret (x :: xs)
  end.

Definition generate_letter_grid (size : Z) : M (list (list char)) :=
  repeatM (Z.to_nat size) (repeatM (Z.to_nat size) (choice letters)).

(** [ch in word] for a one-character [ch] *)
Definition str_contains (ch : char) (word : str) : bool :=
  bool_decide (ch ∈ word).

(** The occupancy filter of the sampling loop:
    [(r, c) in forbidden and grid[r][c] not in word] (with Python's
    short-circuit [and]). *)
Definition occupied_by_foreign_letter (word : str) (rc : coord) : M bool :=
  occ <~ in_forbidden rc;;
  if occ : bool then existing <~ grid_get rc;; ret (negb (str_contains existing word))
  else ret false.

(** The sampling loop [while len(positions) < len(word): ...] *)
Fixpoint sample (fuel : nat) (word : str) (size : Z)
         (positions : list coord) (chosen : gset coord) : M (list coord) :=
  if (length positions <? length word)%nat then
    match fuel with
    | O => out_of_fuel
    | S fuel' =>
        r <~ randint 0 (size - 1);;
        c <~ randint 0 (size - 1);;
        if bool_decide ((r, c) ∈ chosen) then
          sample fuel' word size positions chosen
        else
          reject <~ occupied_by_foreign_letter word (r, c);;
          if reject : bool then sample fuel' word size positions chosen
          else sample fuel' word size (positions ++ [(r, c)]) (chosen ∪ {[ (r, c) ]})
    end
  else ret positions.

(** Reading order: the key [(pos[0], pos[1])] compared as Python compares
    tuples. *)
Definition reading_le (p q : coord) : Prop :=
  fst p < fst q \/ (fst p = fst q /\ snd p <= snd q).

Global Instance reading_le_dec p q : Decision (reading_le p q).
Proof. unfold reading_le. apply _. Defined.

(** [sorted(positions, key=lambda pos: (pos[0], pos[1]))] *)
Definition sorted (positions : list coord) : list coord :=
  merge_sort reading_le positions.

(** The validation loop over [zip(sorted_positions, word)]; the result is
    the final value of [valid]. *)
Fixpoint validate (pairs : list (coord * char)) : M bool :=
  match pairs with
  | [] => ret true
  | (rc, ch) :: rest =>
      occ <~ in_forbidden rc;;
      if occ : bool then
        existing <~ grid_get rc;;
        if bool_decide (existing ≠ ch) then ret false
        else validate rest
      else validate rest
  end.

Definition max_attempts : Z := 5000.

(** One pass through the body of [while True] after the attempt counter has
    been checked: [Some sorted_positions] when the attempt is valid, [None]
    when it is discarded. *)
Definition attempt (fuel : nat) (word : str) (size : Z) : M (option (list coord)) :=
  positions <~ sample fuel word size [] ∅;;
  let sorted_positions := sorted positions in
  valid <~ validate (zip sorted_positions word);;
  if valid : bool then ret (Some sorted_positions) else ret None.

(** The loop [while True] with its counter [attempts]; [n] bounds the number
    of iterations the model follows, [fuel] those of each sampling loop. *)
Fixpoint place_loop (n : nat) (fuel : nat) (word : str) (size : Z)
         (attempts : Z) : M (list coord) :=
  match n with
  | O => out_of_fuel
  | S n' =>
      let attempts := attempts + 1 in
      if attempts >? max_attempts then raise (RuntimeError word)
      else
        res <~ attempt fuel word size;;
        match res with
        | Some sorted_positions => ret sorted_positions
        | None => place_loop n' fuel word size attempts
        end
  end.

Definition place_word_scattered (fuel : nat) (word : str) (size : Z)
  : M (list coord) :=
  place_loop fuel fuel word size 0.

(** [for (r, c), ch in zip(positions, word): grid[r][c] = ch] *)
Fixpoint apply_pairs (pairs : list (coord * char)) : M unit :=
  match pairs with
  | [] => ret tt
  | (rc, ch) :: rest => grid_set rc ch;;; apply_pairs rest
  end.

Definition apply_word_to_grid (positions : list coord) (word : str) : M unit :=
  apply_pairs (zip positions word).

(** ** The main program, up to the hand-over to the renderer *)

(** The loop [for word in WORDS: ...]; [masks] and [word_positions] are the
    two result lists, appended to once per word. *)
Fixpoint place_words (fuel : nat) (size : Z) (WORDS : list str)
         (masks : list (gset coord)) (word_positions : list (list coord))
  : M (list (gset coord) * list (list coord)) :=
  match WORDS with
  | [] => ret (masks, word_positions)
  | word :: rest =>
      positions <~ place_word_scattered fuel word size;;
      apply_word_to_grid positions word;;;
      forbidden_update positions;;;
      let mask : gset coord := list_to_set positions in
      place_words fuel size rest (masks ++ [mask]) (word_positions ++ [positions])
  end.

(** [random.seed(s)]: the source restarts on the tape that [s] determines. *)
Definition seed_random (tp : N -> N) : M unit :=
  fun w => (Done tt, with_random (MkRng tp 0) w).

(** The assignments [grid = ...] and [forbidden = set()] of the main program *)
Definition bind_grid (g : list (list char)) : M unit :=
  fun w => (Done tt, with_grid g w).
Definition bind_forbidden (f : gset coord) : M unit :=
  fun w => (Done tt, with_forbidden f w).

Section Main.
(** The library generator: [generator s i] is the [i]-th raw draw after
    [random.seed(s)]. *)
Variable generator : Z -> N -> N.
(** [str.upper] *)
Variable upper : str -> str.

Definition main (RANDOM_SEED : option Z) (GRID_SIZE : Z) (WORDS : list str)
           (fuel : nat) : M (list (gset coord) * list (list coord)) :=
  match RANDOM_SEED with
  | Some s => seed_random (generator s)
  | None => ret tt
  end;;;
  grid <~ generate_letter_grid GRID_SIZE;;
  bind_grid grid;;;
  bind_forbidden ∅;;;
  let WORDS := map upper WORDS in
  place_words fuel GRID_SIZE WORDS [] [].
End Main.

(** ** Well-formed grids and coordinates *)

Definition wf_grid (size : Z) (g : list (list char)) : Prop :=
  length g = Z.to_nat size /\ Forall (fun row => length row = Z.to_nat size) g.

Definition in_range (size : Z) (rc : coord) : Prop :=
  0 <= fst rc < size /\ 0 <= snd rc < size.

(** [letter_at g ps word]: reading [g] at the [i]-th coordinate of [ps] gives
    the [i]-th character of [word], for every [i], and the two have the same
    length. *)
Definition letter_at (g : list (list char)) (ps : list coord) (word : str) : Prop :=
  Forall2 (fun rc ch => grid_read g rc = Some ch) ps word.

(** ** Vocabulary of the properties, and worked examples *)

(** A computation is read-only on the store when it leaves the grid and the
    set [forbidden] as they were, whatever its result; it may draw from the
    random source, whose tape it cannot change. *)
Definition read_only {A} (m : M A) : Prop :=
  forall w r w', m w = (r, w') ->
    w_grid w' = w_grid w /\ w_forbidden w' = w_forbidden w
    /\ tape (w_random w') = tape (w_random w).

(** The world after one draw *)
Definition advance (w : world) : world :=
  with_random (MkRng (tape (w_random w)) (N.succ (cursor (w_random w)))) w.

(** At most [size * size] distinct coordinates lie in the grid. *)
Definition all_coords (size : Z) : list coord :=
  r ← seqZ 0 size; c ← seqZ 0 size; [(r, c)].

(** [agrees w pairs]: every coordinate of [pairs] that is occupied holds, in
    the grid of [w], the letter paired with it. *)
Definition agrees (w : world) (pairs : list (coord * char)) : Prop :=
  Forall (fun p => fst p ∈ w_forbidden w -> grid_read (w_grid w) (fst p) = Some (snd p))
         pairs.

(** What a returned placement satisfies with respect to the world [w] the
    function was called in. *)
Record placement_ok (size : Z) (word : str) (w : world) (ps : list coord) : Prop := {
  ok_length : length ps = length word;
  ok_NoDup : NoDup ps;
  ok_range : Forall (in_range size) ps;
  ok_sorted : StronglySorted reading_le ps;
  ok_agrees : agrees w (zip ps word)
}.

(** The body of the loop for one word, from the call of
    [place_word_scattered] to [forbidden.update]. *)
Definition place_one (fuel : nat) (size : Z) (word : str) : M (list coord) :=
  positions <~ place_word_scattered fuel word size;;
  apply_word_to_grid positions word;;;
  forbidden_update positions;;;
  ret positions.

(** The invariant of the loop: the grid is well formed, [forbidden] is the
    union of the placements made so far, and every word placed so far can
    still be read at its coordinates. *)
Record run_inv (size : Z) (w : world) (ws : list str) (wps : list (list coord))
  : Prop := {
  inv_wf : wf_grid size (w_grid w);
  inv_occ : w_forbidden w = ⋃ (list_to_set <$> wps);
  inv_range : Forall (Forall (in_range size)) wps;
  inv_letters : Forall2 (letter_at (w_grid w)) wps ws
}.

(** A random source that delivers the listed raw draws, then zeros *)
Definition tape_of (draws : list N) : N -> N :=
  fun i => default 0%N (draws !! N.to_nat i).

(** The running example: a 2 x 2 grid of X, the words AB and BA *)
Definition ex_grid : list (list char) := [[88; 88]; [88; 88]]%N.
Definition ex_AB : str := [65; 66]%N.
Definition ex_BA : str := [66; 65]%N.
Definition ex_tape : N -> N := tape_of [0; 0; 0; 1; 0; 1; 1; 0]%N.

(** before any word is placed *)
Definition ex_world : world := MkWorld ex_grid ∅ (MkRng ex_tape 0%N).
(** after [place_word_scattered] has returned for AB *)
Definition ex_world_AB : world := MkWorld ex_grid ∅ (MkRng ex_tape 4%N).
(** after AB has been committed *)
Definition ex_world_1 : world :=
  MkWorld [[65; 66]; [88; 88]]%N (∅ ∪ list_to_set [(0, 0); (0, 1)]) (MkRng ex_tape 4%N).
(** after BA has been committed as well *)
Definition ex_world_2 : world :=
  MkWorld [[65; 66]; [65; 88]]%N
          (∅ ∪ list_to_set [(0, 0); (0, 1)] ∪ list_to_set [(0, 1); (1, 0)])
          (MkRng ex_tape 8%N).

(** A cell is eligible for a word when it lies in the grid and, if it is
    occupied, holds one of the letters of the word. *)
Definition eligible (size : Z) (word : str) (g : list (list char))
           (f : gset coord) (rc : coord) : Prop :=
  in_range size rc /\ (rc ∈ f -> exists ch, grid_read g rc = Some ch /\ ch ∈ word).

(** The 2 x 2 grid of X with every cell occupied, as it is after a first
    word XXXX has been placed. *)
Definition ex_all : gset coord := list_to_set [(0, 0); (0, 1); (1, 0); (1, 1)].

(** Of the exceptions, only the attempt loop raises RuntimeError. *)
Definition no_runtime_error {A} (m : M A) : Prop :=
  forall w e w', m w = (Raise e, w') -> forall x, e <> RuntimeError x.

(** [failed_attempts k ...] follows [k] attempts in a row from the world [w]:
    it is the world reached when each of them completes and is discarded. *)
Fixpoint failed_attempts (k : nat) (fuel : nat) (word : str) (size : Z)
         (w : world) : option world :=
  match k with
  | O => Some w
  | S k' =>
      match attempt fuel word size w with
      | (Done None, w1) => failed_attempts k' fuel word size w1
      | _ => None
      end
  end.

(** A tape on which two draws in a row are equal: 0, 0, 1, 1, 0, 0, ... *)
Definition ex_tape_pairs : N -> N := fun i => N.b2n (N.testbit i 1).

(** The 2 x 2 grid of B with the first cell occupied: the letter B belongs
    to AB, so the cell passes the sampling filter, but AB assigns A to it. *)
Definition ex_world_B : world :=
  MkWorld [[66; 66]; [66; 66]]%N (list_to_set [(0, 0)]) (MkRng ex_tape_pairs 0%N).

(** A computation that always completes and depends on nothing but the
    random source, which is all it changes. *)
Definition pure_random {A} (m : M A) : Prop :=
  forall rs, exists a rs',
    forall g f, m (MkWorld g f rs) = (Done a, MkWorld g f rs').

(** The world after [k] more draws *)
Definition after_draws (k : N) (w : world) : world :=
  with_random (MkRng (tape (w_random w)) (cursor (w_random w) + k)%N) w.

(** The shape of a placement for a word on a grid of the given size *)
Definition shaped (size : Z) (ps : list coord) (word : str) : Prop :=
  length ps = length word /\ NoDup ps /\ Forall (in_range size) ps
  /\ StronglySorted reading_le ps.

(** A cell content that the program can produce: a letter of the alphabet or
    a letter of one of the words. *)
Definition cell_ok (words : list str) (ch : char) : Prop :=
  ch ∈ letters \/ exists word, word ∈ words /\ ch ∈ word.

(** [sorted(mask, key=lambda p: (p[0], p[1]))], the order in which the
    exporters visit the holes of a mask. The set is enumerated in some order
    and sorted; the result does not depend on the enumeration. *)
Definition sorted_mask (mask : gset coord) : list coord :=
  sorted (elements mask).

(** ** The Cricut export of the masks

    [save_masks_for_cricut] writes one SVG file per mask. The model returns
    the files in the order in which they are written, each as its name and
    its text; creating the output directory is left out. Formatting an
    integer in an f-string is [pretty]. *)

Definition CELL_SIZE_MM : Z := 10.
Definition MARGIN_MM : Z := 20.

(** the double quote and the newline *)
Definition dq : string := String (Ascii.ascii_of_nat 34) EmptyString.
Definition nl : string := String (Ascii.ascii_of_nat 10) EmptyString.

(** [ name="value"], with the leading blank *)
Definition attr (name value : string) : string :=
  " " +:+ name +:+ "=" +:+ dq +:+ value +:+ dq.

(** A square [<rect .../>] without fill, as the export writes its outer
    cut line, its grid cells and its holes. *)
Definition stroked_rect (x y side : Z) (stroke stroke_width : string) : string :=
  "<rect" +:+ attr "x" (pretty x) +:+ attr "y" (pretty y)
  +:+ attr "width" (pretty side) +:+ attr "height" (pretty side)
  +:+ attr "fill" "none" +:+ attr "stroke" stroke
  +:+ attr "stroke-width" stroke_width +:+ "/>".

(** The lines before the grid cells: the four header lines and the outer
    square cut line. *)
Definition cricut_header (size : Z) : list string :=
  let cell_mm := CELL_SIZE_MM in
  let margin_mm := MARGIN_MM in
  let width_mm := size * cell_mm + 2 * margin_mm in
  let height_mm := width_mm in
  let outer_x := margin_mm in
  let outer_y := margin_mm in
  let outer_size := size * cell_mm in
  [ "<?xml" +:+ attr "version" "1.0" +:+ attr "encoding" "UTF-8" +:+ "?>";
    "<svg" +:+ attr "xmlns" "http://www.w3.org/2000/svg"
      +:+ attr "width" (pretty width_mm +:+ "mm")
      +:+ attr "height" (pretty height_mm +:+ "mm")
      +:+ attr "viewBox" ("0 0 " +:+ pretty width_mm +:+ " " +:+ pretty height_mm)
      +:+ ">";
    "<!-- Cricut-ready SVG: black strokes = raster (draw), red strokes = cut -->";
    "<rect" +:+ attr "width" "100%" +:+ attr "height" "100%" +:+ attr "fill" "white"
      +:+ "/>";
    stroked_rect outer_x outer_y outer_size "#FF0000" "0.8" ]%string.

(** The thin black rectangle of the grid cell [(r, c)] *)
Definition cricut_cell (rc : coord) : string :=
  let x := MARGIN_MM + snd rc * CELL_SIZE_MM in
  let y := MARGIN_MM + fst rc * CELL_SIZE_MM in
  stroked_rect x y CELL_SIZE_MM "black" "0.2".

(** The red cut rectangle of the hole [(r, c)] *)
Definition cricut_hole (rc : coord) : string :=
  let x := MARGIN_MM + snd rc * CELL_SIZE_MM in
  let y := MARGIN_MM + fst rc * CELL_SIZE_MM in
  stroked_rect x y CELL_SIZE_MM "#FF0000" "0.8".

(** The list [svg] of one mask when it is written *)
Definition cricut_svg (mask : gset coord) (size : Z) : list string :=
  cricut_header size
  ++ (r ← seqZ 0 size; c ← seqZ 0 size; [cricut_cell (r, c)])
  ++ (cricut_hole <$> sorted_mask mask)
  ++ ["</svg>"%string].

(** The file name of the mask with number [idx] *)
Definition cricut_filename (base_filename : string) (idx : Z) : string :=
  base_filename +:+ "_mask_" +:+ pretty idx +:+ ".svg".

(** The loop over [enumerate(masks, start=1)] from the number [idx] on *)
Fixpoint cricut_files (masks : list (gset coord)) (size : Z)
         (base_filename : string) (idx : Z) : list (string * string) :=
  match masks with
  | [] => []
  | mask :: rest =>
      (cricut_filename base_filename idx, String.concat nl (cricut_svg mask size))
      :: cricut_files rest size base_filename (idx + 1)
  end.

Definition save_masks_for_cricut (masks : list (gset coord)) (size : Z)
           (base_filename : string) : list (string * string) :=
  cricut_files masks size base_filename 1.

(** A run of the main program with seed 7: the grid is drawn as XXXX, then
    AB and BA are placed as in the running example. *)
Definition ex_generator : Z -> N -> N :=
  fun _ => tape_of [23; 23; 23; 23; 0; 0; 0; 1; 0; 1; 1; 0]%N.
Definition ex_upper : str -> str := fun word => word.
Definition ex_wps : list (list coord) := [[(0, 0); (0, 1)]; [(0, 1); (1, 0)]].
Definition ex_masks : list (gset coord) :=
  [list_to_set [(0, 0); (0, 1)]; list_to_set [(0, 1); (1, 0)]].
Definition ex_main_end : world :=
  MkWorld [[65; 66]; [65; 88]]%N
          (∅ ∪ list_to_set [(0, 0); (0, 1)] ∪ list_to_set [(0, 1); (1, 0)])
          (MkRng (ex_generator 7) 12%N).

(** * Lemmas *)

(** ** Reasoning about the monad *)

Lemma bind_Done {A B} (m : M A) (k : A -> M B) w b w' :
  bind m k w = (Done b, w') ->
  exists a w1, m w = (Done a, w1) /\ k a w1 = (Done b, w').
Proof.
  unfold bind. destruct (m w) as [[a|e|] w1]; intros H; try discriminate.
  eauto.
Qed.

Lemma bind_cases {A B} (m : M A) (k : A -> M B) w r w' :
  bind m k w = (r, w') ->
  (exists a w1, m w = (Done a, w1) /\ k a w1 = (r, w'))
  \/ (exists e, m w = (Raise e, w') /\ r = Raise e)
  \/ (m w = (OutOfFuel, w') /\ r = OutOfFuel).
Proof.
  unfold bind. destruct (m w) as [[a|e|] w1]; intros H.
  - left. eauto.
  - right. left. inversion H; subst. eauto.
  - right. right. inversion H; subst. eauto.
Qed.

Lemma read_only_ret {A} (a : A) : read_only (ret a).
Proof. intros w r w' H. inversion H; subst. auto. Qed.

Lemma read_only_raise {A} e : read_only (@raise A e).
Proof. intros w r w' H. inversion H; subst. auto. Qed.

Lemma read_only_out_of_fuel {A} : read_only (@out_of_fuel A).
Proof. intros w r w' H. inversion H; subst. auto. Qed.

Lemma read_only_bind {A B} (m : M A) (k : A -> M B) :
  read_only m -> (forall a, read_only (k a)) -> read_only (bind m k).
Proof.
  intros Hm Hk w r w' H.
  destruct (bind_cases _ _ _ _ _ H) as [(a & w1 & H1 & H2) | [(e & H1 & _) | (H1 & _)]].
  - destruct (Hm _ _ _ H1) as (? & ? & ?), (Hk _ _ _ _ H2) as (? & ? & ?).
    repeat split; congruence.
  - exact (Hm _ _ _ H1).
  - exact (Hm _ _ _ H1).
Qed.

Lemma read_only_in_forbidden rc : read_only (in_forbidden rc).
Proof. intros w r w' H. inversion H; subst. auto. Qed.

Lemma read_only_grid_get rc : read_only (grid_get rc).
Proof.
  intros w r w'. unfold grid_get.
  destruct (grid_read (w_grid w) rc); intros H; inversion H; subst; auto.
Qed.

Lemma read_only_randbelow n : read_only (randbelow n).
Proof. intros w r w' H. inversion H; subst. auto. Qed.

Lemma read_only_randint a b : read_only (randint a b).
Proof.
  unfold randint. destruct (b - a + 1 <=? 0).
  - apply read_only_raise.
  - apply read_only_bind; [apply read_only_randbelow | intros; apply read_only_ret].
Qed.

Create HintDb ro.
#[local] Hint Resolve read_only_ret read_only_raise read_only_out_of_fuel
  read_only_in_forbidden read_only_grid_get read_only_randint : ro.

Ltac ro_step :=
  match goal with
  | |- read_only (bind _ _) => apply read_only_bind; [| intros ?]
  | |- read_only (if ?b then _ else _) => destruct b
  | |- read_only (match ?o with Some _ => _ | None => _ end) => destruct o
  | |- read_only _ => solve [auto with ro]
  end.

Lemma read_only_occupied word rc : read_only (occupied_by_foreign_letter word rc).
Proof. unfold occupied_by_foreign_letter. repeat ro_step. Qed.

Lemma read_only_sample fuel word size : forall positions chosen,
  read_only (sample fuel word size positions chosen).
Proof.
  induction fuel as [|fuel IH]; intros positions chosen; simpl;
    destruct (length positions <? length word)%nat; auto with ro.
  pose proof read_only_occupied.
  repeat ro_step; auto.
Qed.

Lemma read_only_validate pairs : read_only (validate pairs).
Proof.
  induction pairs as [|[rc ch] rest IH]; simpl; auto with ro.
  repeat ro_step; auto.
Qed.

Lemma read_only_attempt fuel word size : read_only (attempt fuel word size).
Proof.
  unfold attempt. pose proof read_only_sample. pose proof read_only_validate.
  repeat ro_step; auto.
Qed.

Lemma read_only_place_loop n fuel word size : forall attempts,
  read_only (place_loop n fuel word size attempts).
Proof.
  induction n as [|n IH]; intros attempts; simpl; auto with ro.
  pose proof read_only_attempt.
  repeat ro_step; auto.
Qed.

(** ** The primitives, step by step *)

Lemma randint_Done a b w r w' :
  randint a b w = (Done r, w') -> a <= r <= b /\ w' = advance w.
Proof.
  unfold randint. destruct (b - a + 1 <=? 0) eqn:E; [discriminate|].
  apply Z.leb_gt in E. intros H. apply bind_Done in H as (k & w1 & H1 & H2).
  unfold randbelow in H1. inversion H1; subst. inversion H2; subst.
  split; [|reflexivity].
  pose proof (Z.mod_pos_bound (Z.of_N (tape (w_random w) (cursor (w_random w))))
                (b - a + 1) E). lia.
Qed.

Lemma randint_total a b w :
  a <= b -> exists r, randint a b w = (Done r, advance w) /\ a <= r <= b.
Proof.
  intros Hab. destruct (randint a b w) as [res w'] eqn:E.
  pose proof E as E'. unfold randint in E'.
  destruct (b - a + 1 <=? 0) eqn:El; [apply Z.leb_le in El; lia|].
  unfold bind, randbelow, ret in E'. inversion E'; subst. clear E'.
  apply randint_Done in E as [? ?]. eauto.
Qed.

Lemma randint_empty a b w :
  b < a -> randint a b w = (Raise ValueError, w).
Proof.
  intros Hab. unfold randint. destruct (b - a + 1 <=? 0) eqn:El; [reflexivity|].
  apply Z.leb_gt in El. lia.
Qed.

Lemma occupied_Done word rc w b w' :
  occupied_by_foreign_letter word rc w = (Done b, w') ->
  w' = w /\
  (b = true <->
   rc ∈ w_forbidden w /\ exists ch, grid_read (w_grid w) rc = Some ch /\ ch ∉ word).
Proof.
  unfold occupied_by_foreign_letter, bind, in_forbidden, grid_get, ret, str_contains.
  destruct (bool_decide_reflect (rc ∈ w_forbidden w)) as [Hin|Hout].
  - destruct (grid_read (w_grid w) rc) as [ch|]; [|discriminate].
    intros H. inversion H; subst. split; [reflexivity|].
    destruct (bool_decide_reflect (ch ∈ word)) as [Hw|Hw]; simpl.
    + split; [discriminate|]. intros (_ & ch' & Hch & Hn). congruence.
    + split; [|reflexivity]. eauto.
  - intros H. inversion H; subst. split; [reflexivity|].
    split; [discriminate|]. intros (? & _). contradiction.
Qed.

(** ** The sampling loop *)

Lemma sample_Done fuel word size : forall positions chosen w ps w',
  sample fuel word size positions chosen w = (Done ps, w') ->
  chosen = list_to_set positions ->
  NoDup positions ->
  Forall (in_range size) positions ->
  (length positions <= length word)%nat ->
  NoDup ps /\ Forall (in_range size) ps /\ length ps = length word.
Proof.
  induction fuel as [|fuel IH]; intros positions chosen w ps w' H Hch Hnd Hr Hlen;
    simpl in H; destruct (Nat.ltb_spec (length positions) (length word)) as [Hlt|Hge];
    try (inversion H; subst; repeat split; auto; lia); try discriminate.
  apply bind_Done in H as (r & w1 & Hr1 & H).
  apply bind_Done in H as (c & w2 & Hr2 & H).
  apply randint_Done in Hr1 as [Hr1 _]. apply randint_Done in Hr2 as [Hr2 _].
  destruct (bool_decide_reflect ((r, c) ∈ chosen)) as [Hin|Hout].
  { eapply IH; eauto. }
  apply bind_Done in H as (reject & w3 & _ & H).
  destruct reject.
  { eapply IH; eauto. }
  eapply IH; [exact H| | | |].
  - subst chosen. rewrite list_to_set_app_L. simpl.
    rewrite union_empty_r_L. reflexivity.
  - subst chosen. apply NoDup_app. split; [assumption|]. split.
    + intros x Hx Hx'. apply list_elem_of_singleton in Hx'. subst x.
      apply Hout. apply elem_of_list_to_set. assumption.
    + apply NoDup_singleton.
  - apply Forall_app. split; [assumption|]. constructor; [|constructor].
    unfold in_range. simpl. lia.
  - rewrite length_app. simpl. lia.
Qed.

Lemma elem_of_all_coords size rc : in_range size rc -> rc ∈ all_coords size.
Proof.
  destruct rc as [r c]. unfold in_range, all_coords. simpl. intros [Hr Hc].
  apply list_elem_of_bind. exists r. split; [|apply elem_of_seqZ; lia].
  apply list_elem_of_bind. exists c. split; [|apply elem_of_seqZ; lia].
  apply list_elem_of_singleton. reflexivity.
Qed.

Lemma length_all_coords size :
  length (all_coords size) = (Z.to_nat size * Z.to_nat size)%nat.
Proof.
  unfold all_coords.
  assert (Hin : forall (l : list Z) (r : Z),
             length (c ← l; [(r, c)]) = length l).
  { intros l r. induction l as [|x l IHl]; [reflexivity|].
    rewrite bind_cons. simpl. f_equal. exact IHl. }
  assert (Hout : forall (l l' : list Z),
             length (r ← l; c ← l'; [(r, c)]) = (length l * length l')%nat).
  { intros l l'. induction l as [|x l IHl]; [reflexivity|].
    rewrite bind_cons, length_app, IHl, Hin. reflexivity. }
  etransitivity; [apply Hout|]. rewrite length_seqZ. reflexivity.
Qed.

Lemma distinct_coords_bound size (ps : list coord) :
  NoDup ps -> Forall (in_range size) ps ->
  (length ps <= Z.to_nat size * Z.to_nat size)%nat.
Proof.
  intros Hnd Hr. rewrite <- length_all_coords.
  apply submseteq_length, NoDup_submseteq; [assumption|].
  intros x Hx. apply elem_of_all_coords.
  rewrite Forall_forall in Hr. auto.
Qed.

(** ** Sorting into reading order *)

Global Instance reading_le_trans : Transitive reading_le.
Proof. intros [a b] [c d] [e f]. unfold reading_le. simpl. lia. Qed.

Global Instance reading_le_total : Total reading_le.
Proof. intros [a b] [c d]. unfold reading_le. simpl. lia. Qed.

Lemma sorted_Permutation ps : sorted ps ≡ₚ ps.
Proof. apply merge_sort_Permutation. Qed.

Lemma sorted_StronglySorted ps : StronglySorted reading_le (sorted ps).
Proof. apply StronglySorted_merge_sort; apply _. Qed.

Lemma sorted_length ps : length (sorted ps) = length ps.
Proof. apply Permutation_length, sorted_Permutation. Qed.

Lemma sorted_NoDup ps : NoDup ps -> NoDup (sorted ps).
Proof. intros H. rewrite sorted_Permutation. exact H. Qed.

Lemma sorted_Forall (P : coord -> Prop) ps : Forall P ps -> Forall P (sorted ps).
Proof. intros H. rewrite sorted_Permutation. exact H. Qed.

(** ** The validation loop *)

Lemma validate_true pairs : forall w w',
  validate pairs w = (Done true, w') -> w' = w /\ agrees w pairs.
Proof.
  induction pairs as [|[rc ch] rest IH]; intros w w' H; simpl in H.
  - inversion H; subst. split; [reflexivity | constructor].
  - unfold bind, in_forbidden, grid_get in H.
    destruct (bool_decide_reflect (rc ∈ w_forbidden w)) as [Hin|Hout].
    + destruct (grid_read (w_grid w) rc) as [existing|] eqn:Hread; [|discriminate].
      destruct (bool_decide_reflect (existing ≠ ch)) as [Hne|Heq]; [discriminate|].
      apply IH in H as [-> Hrest]. split; [reflexivity|].
      constructor; [|exact Hrest]. simpl. intros _.
      destruct (decide (existing = ch)) as [->|]; [exact Hread | contradiction].
    + apply IH in H as [-> Hrest]. split; [reflexivity|].
      constructor; [|exact Hrest]. simpl. intros Hin. contradiction.
Qed.

(** The converse: a mismatch at an occupied coordinate makes the loop answer
    [False], so the attempt is discarded. *)
Lemma validate_false pairs : forall w w',
  validate pairs w = (Done false, w') ->
  w' = w /\
  Exists (fun p => fst p ∈ w_forbidden w /\
                   exists existing, grid_read (w_grid w) (fst p) = Some existing
                                    /\ existing <> snd p) pairs.
Proof.
  induction pairs as [|[rc ch] rest IH]; intros w w' H; simpl in H.
  - inversion H.
  - unfold bind, in_forbidden, grid_get in H.
    destruct (bool_decide_reflect (rc ∈ w_forbidden w)) as [Hin|Hout].
    + destruct (grid_read (w_grid w) rc) as [existing|] eqn:Hread; [|discriminate].
      destruct (bool_decide_reflect (existing ≠ ch)) as [Hne|Heq].
      * inversion H; subst. split; [reflexivity|]. apply Exists_cons_hd. simpl. eauto.
      * apply IH in H as [-> Hrest]. split; [reflexivity|]. apply Exists_cons_tl, Hrest.
    + apply IH in H as [-> Hrest]. split; [reflexivity|]. apply Exists_cons_tl, Hrest.
Qed.

(** ** One attempt and the attempt loop *)

Lemma agrees_same_store w w' pairs :
  w_grid w' = w_grid w -> w_forbidden w' = w_forbidden w ->
  agrees w' pairs -> agrees w pairs.
Proof. unfold agrees. intros -> ->. auto. Qed.

Lemma attempt_Some fuel word size w ps w' :
  attempt fuel word size w = (Done (Some ps), w') ->
  placement_ok size word w ps.
Proof.
  unfold attempt. intros H.
  apply bind_Done in H as (raw & w1 & Hs & H).
  apply bind_Done in H as (valid & w2 & Hv & H).
  destruct valid; inversion H; subst; clear H.
  destruct (read_only_sample _ _ _ _ _ _ _ _ Hs) as (Hg & Hf & _).
  apply sample_Done in Hs as (Hnd & Hr & Hlen);
    [| reflexivity | constructor | constructor | simpl; lia].
  apply validate_true in Hv as [-> Hag].
  split.
  - rewrite sorted_length. exact Hlen.
  - apply sorted_NoDup, Hnd.
  - apply sorted_Forall, Hr.
  - apply sorted_StronglySorted.
  - eapply agrees_same_store; eauto.
Qed.

Lemma place_loop_Done n fuel word size : forall attempts w ps w',
  place_loop n fuel word size attempts w = (Done ps, w') ->
  placement_ok size word w ps.
Proof.
  induction n as [|n IH]; intros attempts w ps w' H; simpl in H; [discriminate|].
  destruct (attempts + 1 >? max_attempts); [discriminate|].
  apply bind_Done in H as (res & w1 & Ha & H).
  destruct res as [sp|].
  - inversion H; subst. eapply attempt_Some, Ha.
  - destruct (read_only_attempt _ _ _ _ _ _ Ha) as (Hg & Hf & _).
    apply IH in H. destruct H as [H1 H2 H3 H4 H5].
    split; auto. eapply agrees_same_store; eauto.
Qed.

(** ** Reading and writing a well-formed grid *)

Lemma py_index_in_range {A} (l : list A) (i : Z) :
  0 <= i < Z.of_nat (length l) -> py_index l i = Some (Z.to_nat i).
Proof.
  intros [H0 H1]. unfold py_index.
  destruct (Z.ltb_spec i 0); [lia|].
  destruct (Z.ltb_spec i (Z.of_nat (length l))); [reflexivity | lia].
Qed.

Lemma wf_grid_row size g r :
  wf_grid size g -> 0 <= r < size ->
  exists row, g !! Z.to_nat r = Some row /\ length row = Z.to_nat size.
Proof.
  intros [Hlen Hrows] Hr.
  destruct (lookup_lt_is_Some_2 g (Z.to_nat r)) as [row Hrow]; [lia|].
  exists row. split; [exact Hrow|].
  rewrite Forall_forall in Hrows. apply Hrows.
  apply list_elem_of_lookup. eauto.
Qed.

Lemma grid_read_in_range size g rc :
  wf_grid size g -> in_range size rc ->
  exists row, g !! Z.to_nat (fst rc) = Some row
              /\ length row = Z.to_nat size
              /\ grid_read g rc = row !! Z.to_nat (snd rc).
Proof.
  intros Hwf [Hr Hc]. destruct (wf_grid_row _ _ _ Hwf Hr) as (row & Hrow & Hlen).
  exists row. repeat split; try assumption.
  unfold grid_read, py_getitem. destruct Hwf as [Hg _].
  rewrite py_index_in_range by lia. rewrite Hrow.
  rewrite py_index_in_range by lia. reflexivity.
Qed.

Lemma grid_write_in_range size g rc ch :
  wf_grid size g -> in_range size rc ->
  exists g', grid_write g rc ch = Some g'
    /\ wf_grid size g'
    /\ grid_read g' rc = Some ch
    /\ (forall rc', in_range size rc' -> rc' <> rc -> grid_read g' rc' = grid_read g rc').
Proof.
  intros Hwf Hrc.
  destruct (grid_read_in_range _ _ _ Hwf Hrc) as (row & Hrow & Hlen & _).
  pose proof Hwf as [Hg Hrows]. pose proof Hrc as [Hr Hc].
  set (row' := <[Z.to_nat (snd rc) := ch]> row).
  set (g' := <[Z.to_nat (fst rc) := row']> g).
  assert (Hw : grid_write g rc ch = Some g').
  { unfold grid_write, py_getitem, py_setitem.
    rewrite py_index_in_range by lia. rewrite Hrow.
    rewrite py_index_in_range by lia. reflexivity. }
  assert (Hwf' : wf_grid size g').
  { split.
    - unfold g'. rewrite length_insert. exact Hg.
    - unfold g'. apply Forall_insert; [exact Hrows|].
      unfold row'. rewrite length_insert. exact Hlen. }
  exists g'. split; [exact Hw|]. split; [exact Hwf'|]. split.
  - destruct (grid_read_in_range _ _ _ Hwf' Hrc) as (r1 & Hr1 & _ & ->).
    unfold g' in Hr1. rewrite list_lookup_insert_eq in Hr1 by lia.
    inversion Hr1; subst r1. unfold row'.
    apply list_lookup_insert_eq. lia.
  - intros rc' Hrc' Hne.
    destruct (grid_read_in_range _ _ _ Hwf' Hrc') as (r1 & Hr1 & _ & ->).
    destruct (grid_read_in_range _ _ _ Hwf Hrc') as (r0 & Hr0 & _ & ->).
    destruct Hrc' as [Hr' Hc'].
    destruct (decide (fst rc' = fst rc)) as [Heq|Hdiff].
    + unfold g' in Hr1. rewrite Heq in Hr1, Hr0.
      rewrite list_lookup_insert_eq in Hr1 by lia.
      inversion Hr1; subst r1. assert (r0 = row) by congruence. subst r0.
      unfold row'. apply list_lookup_insert_ne.
      intros Hc2. apply Hne. destruct rc, rc'. simpl in *. f_equal; lia.
    + unfold g' in Hr1. rewrite list_lookup_insert_ne in Hr1 by lia.
      congruence.
Qed.

(** ** The commit step *)

Lemma apply_pairs_spec size pairs : forall w,
  wf_grid size (w_grid w) ->
  NoDup (pairs.*1) ->
  Forall (in_range size) (pairs.*1) ->
  exists g',
    apply_pairs pairs w = (Done tt, with_grid g' w)
    /\ wf_grid size g'
    /\ Forall (fun p => grid_read g' (fst p) = Some (snd p)) pairs
    /\ (forall rc, in_range size rc -> rc ∉ pairs.*1 ->
                   grid_read g' rc = grid_read (w_grid w) rc).
Proof.
  induction pairs as [|[rc ch] rest IH]; intros w Hwf Hnd Hr.
  - exists (w_grid w). destruct w. simpl. repeat split; auto; apply Hwf.
  - rewrite fmap_cons in Hnd, Hr. simpl in Hnd, Hr.
    apply NoDup_cons in Hnd as [Hnotin Hnd]. apply Forall_cons in Hr as [Hrc Hr].
    destruct (grid_write_in_range size (w_grid w) rc ch Hwf Hrc)
      as (g1 & Hw & Hwf1 & Hread1 & Hother1).
    destruct (IH (with_grid g1 w) Hwf1 Hnd Hr) as (g' & Happ & Hwf' & Hall & Hother).
    exists g'. split.
    { simpl. unfold bind, grid_set. rewrite Hw. rewrite Happ. reflexivity. }
    split; [exact Hwf'|]. split.
    + constructor; [|exact Hall]. simpl.
      rewrite (Hother rc Hrc Hnotin). exact Hread1.
    + intros rc' Hrc' Hnin. rewrite fmap_cons in Hnin. simpl in Hnin.
      apply not_elem_of_cons in Hnin as [Hne Hnin].
      rewrite (Hother rc' Hrc' Hnin). simpl. apply Hother1; assumption.
Qed.

Lemma zip_fst_eq {A B} (l : list A) (k : list B) :
  length l = length k -> (zip l k).*1 = l.
Proof.
  revert k. induction l as [|x l IH]; intros [|y k] Hlen; simpl in *;
    try discriminate; [reflexivity|].
  f_equal. apply IH. lia.
Qed.

Lemma Forall_zip_Forall2 {A B} (P : A -> B -> Prop) (l : list A) (k : list B) :
  length l = length k ->
  Forall (fun p => P (fst p) (snd p)) (zip l k) -> Forall2 P l k.
Proof.
  revert k. induction l as [|x l IH]; intros [|y k] Hlen H; simpl in *;
    try discriminate; [constructor|].
  inversion H; subst. constructor; [assumption|]. apply IH; [lia | assumption].
Qed.

Lemma apply_word_to_grid_spec size positions word w :
  wf_grid size (w_grid w) ->
  NoDup positions ->
  Forall (in_range size) positions ->
  length positions = length word ->
  exists g',
    apply_word_to_grid positions word w = (Done tt, with_grid g' w)
    /\ wf_grid size g'
    /\ letter_at g' positions word
    /\ (forall rc, in_range size rc -> rc ∉ positions ->
                   grid_read g' rc = grid_read (w_grid w) rc).
Proof.
  intros Hwf Hnd Hr Hlen. unfold apply_word_to_grid.
  destruct (apply_pairs_spec size (zip positions word) w Hwf)
    as (g' & Happ & Hwf' & Hall & Hother).
  - rewrite zip_fst_eq by exact Hlen. exact Hnd.
  - rewrite zip_fst_eq by exact Hlen. exact Hr.
  - exists g'. rewrite zip_fst_eq in Hother by exact Hlen.
    repeat split; try assumption; try apply Hwf'.
    apply Forall_zip_Forall2; assumption.
Qed.

(** ** The placement loop of the main program *)

(** The commit step writes the grid only. *)
Lemma apply_pairs_keeps pairs : forall w r w',
  apply_pairs pairs w = (r, w') ->
  w_forbidden w' = w_forbidden w /\ w_random w' = w_random w.
Proof.
  induction pairs as [|[rc ch] rest IH]; intros w r w' H; simpl in H.
  - inversion H; subst. auto.
  - unfold bind, grid_set in H.
    destruct (grid_write (w_grid w) rc ch) as [g|].
    + apply IH in H. simpl in H. exact H.
    + inversion H; subst. auto.
Qed.

Lemma place_word_scattered_read_only fuel word size :
  read_only (place_word_scattered fuel word size).
Proof. apply read_only_place_loop. Qed.

Lemma place_word_scattered_Done fuel word size w ps w' :
  place_word_scattered fuel word size w = (Done ps, w') ->
  placement_ok size word w ps.
Proof. apply place_loop_Done. Qed.

Lemma place_words_cons fuel size word rest masks wps w :
  place_words fuel size (word :: rest) masks wps w =
  (positions <~ place_one fuel size word;;
   place_words fuel size rest (masks ++ [list_to_set positions]) (wps ++ [positions])) w.
Proof.
  simpl. unfold place_one, bind.
  destruct (place_word_scattered fuel word size w) as [[ps|e|] w1]; try reflexivity.
  destruct (apply_word_to_grid ps word w1) as [[[]|e|] w2]; reflexivity.
Qed.

Lemma place_one_occupancy fuel size word w ps w' :
  place_one fuel size word w = (Done ps, w') ->
  w_forbidden w' = w_forbidden w ∪ list_to_set ps.
Proof.
  unfold place_one. intros H.
  apply bind_Done in H as (ps0 & w1 & Hp & H).
  apply bind_Done in H as ([] & w2 & Ha & H).
  apply bind_Done in H as ([] & w3 & Hu & H).
  inversion H; subst; clear H.
  apply place_word_scattered_read_only in Hp as (_ & Hf1 & _).
  apply apply_pairs_keeps in Ha as [Hf2 _].
  unfold forbidden_update in Hu. inversion Hu; subst. simpl. congruence.
Qed.

Lemma place_words_occupancy fuel size : forall WORDS masks wps w masks' wps' w',
  place_words fuel size WORDS masks wps w = (Done (masks', wps'), w') ->
  exists new,
    wps' = wps ++ new
    /\ masks' = masks ++ (list_to_set <$> new)
    /\ length new = length WORDS
    /\ w_forbidden w' = w_forbidden w ∪ ⋃ (list_to_set <$> new).
Proof.
  induction WORDS as [|word rest IH]; intros masks wps w masks' wps' w' H.
  - simpl in H. inversion H; subst. exists []. simpl.
    rewrite !app_nil_r, union_empty_r_L. auto.
  - rewrite place_words_cons in H.
    apply bind_Done in H as (ps & w1 & H1 & H).
    apply place_one_occupancy in H1.
    apply IH in H as (new & -> & -> & Hlen & Hf).
    exists (ps :: new). rewrite <- !app_assoc. simpl.
    repeat split; auto.
    rewrite Hf, H1. rewrite (assoc_L (∪)). reflexivity.
Qed.

Lemma place_words_app fuel size : forall ws1 ws2 masks wps w,
  place_words fuel size (ws1 ++ ws2) masks wps w =
  (res <~ place_words fuel size ws1 masks wps;;
   place_words fuel size ws2 (fst res) (snd res)) w.
Proof.
  induction ws1 as [|word rest IH]; intros ws2 masks wps w.
  - reflexivity.
  - rewrite <- app_comm_cons, place_words_cons. unfold bind.
    rewrite place_words_cons. unfold bind.
    destruct (place_one fuel size word w) as [[ps|e|] w1]; try reflexivity.
    rewrite IH. reflexivity.
Qed.

Lemma agrees_lookup w ps word i rc ch :
  agrees w (zip ps word) ->
  ps !! i = Some rc -> word !! i = Some ch ->
  rc ∈ w_forbidden w -> grid_read (w_grid w) rc = Some ch.
Proof.
  unfold agrees. intros Hag Hp Hw Hin.
  rewrite Forall_forall in Hag.
  apply (Hag (rc, ch)); [|exact Hin].
  apply list_elem_of_lookup. exists i.
  rewrite lookup_zip_with, Hp. simpl. rewrite Hw. reflexivity.
Qed.

Lemma letter_at_lookup g ps word i rc :
  letter_at g ps word -> ps !! i = Some rc ->
  exists ch, word !! i = Some ch /\ grid_read g rc = Some ch.
Proof.
  intros H Hp. destruct (Forall2_lookup_l _ _ _ _ _ H Hp) as (ch & Hw & Hr). eauto.
Qed.

Lemma elem_of_union_list_to_set (wps : list (list coord)) ps rc :
  ps ∈ wps -> rc ∈ ps -> rc ∈ (⋃ (list_to_set <$> wps) : gset coord).
Proof.
  intros Hps Hrc. apply elem_of_union_list. exists (list_to_set ps). split.
  - apply list_elem_of_fmap. eauto.
  - apply elem_of_list_to_set. exact Hrc.
Qed.

Lemma place_one_inv fuel size word w ws wps ps w' :
  run_inv size w ws wps ->
  place_one fuel size word w = (Done ps, w') ->
  run_inv size w' (ws ++ [word]) (wps ++ [ps]).
Proof.
  intros [Hwf Hocc Hrange Hletters] H.
  pose proof (place_one_occupancy _ _ _ _ _ _ H) as Hf'.
  unfold place_one in H.
  apply bind_Done in H as (ps0 & w1 & Hp & H).
  apply bind_Done in H as ([] & w2 & Ha & H).
  apply bind_Done in H as ([] & w3 & Hu & H).
  inversion H; subst ps0 w3; clear H.
  pose proof (place_word_scattered_Done _ _ _ _ _ _ Hp) as [Hlen Hnd Hr Hso Hag].
  apply place_word_scattered_read_only in Hp as (Hg1 & Hf1 & _).
  rewrite <- Hg1 in Hwf.
  destruct (apply_word_to_grid_spec size ps word w1 Hwf Hnd Hr Hlen)
    as (g' & Happ & Hwf' & Hnew & Hother).
  rewrite Happ in Ha. inversion Ha; subst w2; clear Ha.
  unfold forbidden_update in Hu. inversion Hu; subst w'; clear Hu.
  simpl in *. split; simpl.
  - exact Hwf'.
  - rewrite Hf', Hocc, fmap_app, union_list_app_L. simpl.
    rewrite union_empty_r_L. reflexivity.
  - apply Forall_app. split; [exact Hrange | constructor; [exact Hr | constructor]].
  - apply Forall2_app; [|constructor; [exact Hnew | constructor]].
    apply Forall2_same_length_lookup in Hletters as [Hlens Hletters].
    apply Forall2_same_length_lookup. split; [exact Hlens|].
    intros k ps' word' Hk Hk'. specialize (Hletters k ps' word' Hk Hk').
    assert (Hin : ps' ∈ wps) by (apply list_elem_of_lookup; eauto).
    rewrite Forall_forall in Hrange.
    pose proof (Hrange ps' Hin) as Hr'. rewrite Forall_forall in Hr'.
    unfold letter_at in *.
    apply Forall2_same_length_lookup in Hletters as [Hlen' Hold].
    apply Forall2_same_length_lookup. split; [exact Hlen'|].
    intros j rc ch Hj Hj'. pose proof (Hold j rc ch Hj Hj') as Hread.
    assert (Hrc : rc ∈ ps') by (apply list_elem_of_lookup; eauto).
    destruct (decide (rc ∈ ps)) as [Hshared|Hfresh].
    + apply list_elem_of_lookup in Hshared as (i & Hi).
      destruct (letter_at_lookup _ _ _ _ _ Hnew Hi) as (ch' & Hw' & Hread').
      assert (Hocc' : rc ∈ w_forbidden w).
      { rewrite Hocc. eapply elem_of_union_list_to_set; eauto. }
      pose proof (agrees_lookup _ _ _ _ _ _ Hag Hi Hw' Hocc') as Hex.
      congruence.
    + rewrite (Hother rc (Hr' rc Hrc) Hfresh), Hg1. exact Hread.
Qed.

Lemma place_words_inv fuel size : forall rest ws masks wps w masks' wps' w',
  run_inv size w ws wps ->
  place_words fuel size rest masks wps w = (Done (masks', wps'), w') ->
  run_inv size w' (ws ++ rest) wps'.
Proof.
  induction rest as [|word rest IH]; intros ws masks wps w masks' wps' w' Hinv H.
  - simpl in H. inversion H; subst. rewrite app_nil_r. exact Hinv.
  - rewrite place_words_cons in H.
    apply bind_Done in H as (ps & w1 & H1 & H).
    pose proof (place_one_inv _ _ _ _ _ _ _ _ Hinv H1) as Hinv1.
    pose proof (IH _ _ _ _ _ _ _ Hinv1 H) as Hinv2.
    rewrite <- app_assoc in Hinv2. exact Hinv2.
Qed.

Lemma run_inv_start size w :
  wf_grid size (w_grid w) -> w_forbidden w = ∅ -> run_inv size w [] [].
Proof. intros Hwf Hf. split; simpl; auto. Qed.

(** ** Worked example: a 2 x 2 grid of X, the words AB and BA *)

Lemma ex_grid_wf : wf_grid 2 ex_grid.
Proof. split; [reflexivity | repeat constructor]. Qed.

Lemma ex_place_AB :
  place_word_scattered 3 ex_AB 2 ex_world = (Done [(0, 0); (0, 1)], ex_world_AB).
Proof. vm_compute. reflexivity. Qed.

Lemma ex_place_words :
  place_words 3 2 [ex_AB; ex_BA] [] [] ex_world
  = (Done ([list_to_set [(0, 0); (0, 1)]; list_to_set [(0, 1); (1, 0)]],
           [[(0, 0); (0, 1)]; [(0, 1); (1, 0)]]), ex_world_2).
Proof. vm_compute. reflexivity. Qed.

Lemma ex_place_words_1 :
  place_words 3 2 [ex_AB] [] [] ex_world
  = (Done ([list_to_set [(0, 0); (0, 1)]], [[(0, 0); (0, 1)]]), ex_world_1).
Proof. vm_compute. reflexivity. Qed.

(** ** Sampling without enough eligible cells *)

Lemma grid_read_Some size g rc :
  wf_grid size g -> in_range size rc -> exists ch, grid_read g rc = Some ch.
Proof.
  intros Hwf Hrc.
  destruct (grid_read_in_range _ _ _ Hwf Hrc) as (row & _ & Hlen & ->).
  apply lookup_lt_is_Some_2. destruct Hrc as [_ Hc]. lia.
Qed.

Lemma occupied_free word rc w :
  rc ∉ w_forbidden w -> occupied_by_foreign_letter word rc w = (Done false, w).
Proof.
  intros H. unfold occupied_by_foreign_letter, bind, in_forbidden.
  rewrite bool_decide_eq_false_2 by exact H. reflexivity.
Qed.

Lemma occupied_taken word rc w existing :
  rc ∈ w_forbidden w -> grid_read (w_grid w) rc = Some existing ->
  occupied_by_foreign_letter word rc w
  = (Done (negb (bool_decide (existing ∈ word))), w).
Proof.
  intros H Hread. unfold occupied_by_foreign_letter, bind, in_forbidden, grid_get.
  rewrite bool_decide_eq_true_2 by exact H. rewrite Hread. reflexivity.
Qed.

Lemma sample_starved size word g f :
  1 <= size -> wf_grid size g ->
  (forall ps, NoDup ps -> Forall (eligible size word g f) ps ->
              (length ps < length word)%nat) ->
  forall fuel positions chosen w,
    w_grid w = g -> w_forbidden w = f ->
    chosen = list_to_set positions ->
    NoDup positions ->
    Forall (eligible size word g f) positions ->
    fst (sample fuel word size positions chosen w) = OutOfFuel.
Proof.
  intros Hsize Hwf Hfew.
  induction fuel as [|fuel IH]; intros positions chosen w Hg Hf Hch Hnd Hel; simpl;
    pose proof (Hfew positions Hnd Hel) as Hlt;
    destruct (Nat.ltb_spec (length positions) (length word)) as [_|?]; try lia;
    [reflexivity|].
  destruct (randint_total 0 (size - 1) w) as (r & Hr & Hrr); [lia|].
  destruct (randint_total 0 (size - 1) (advance w)) as (c & Hc & Hcr); [lia|].
  unfold bind at 1. rewrite Hr. unfold bind at 1. rewrite Hc.
  set (w2 := advance (advance w)).
  assert (Hg2 : w_grid w2 = g) by exact Hg.
  assert (Hf2 : w_forbidden w2 = f) by exact Hf.
  assert (Hrc : in_range size (r, c)) by (unfold in_range; simpl; lia).
  assert (Hgrow : (r, c) ∉ chosen -> eligible size word g f (r, c) ->
            fst (sample fuel word size (positions ++ [(r, c)])
                        (chosen ∪ {[(r, c)]}) w2) = OutOfFuel).
  { intros Hout Hok. apply IH; auto.
    - subst chosen. rewrite list_to_set_app_L. simpl.
      rewrite union_empty_r_L. reflexivity.
    - apply NoDup_app. split; [assumption|]. split; [|apply NoDup_singleton].
      intros x Hx Hx'. apply list_elem_of_singleton in Hx'. subst x.
      apply Hout. subst chosen. apply elem_of_list_to_set. assumption.
    - apply Forall_app. split; [assumption | constructor; [exact Hok | constructor]]. }
  destruct (bool_decide_reflect ((r, c) ∈ chosen)) as [Hin|Hout].
  { apply IH; auto. }
  destruct (decide ((r, c) ∈ f)) as [Hocc|Hfree].
  - destruct (grid_read_Some size g (r, c) Hwf Hrc) as (existing & Hread).
    unfold bind.
    rewrite (occupied_taken word (r, c) w2 existing) by congruence.
    destruct (bool_decide_reflect (existing ∈ word)) as [Hw|Hw]; simpl.
    + apply Hgrow; [exact Hout|]. split; [exact Hrc|]. eauto.
    + apply IH; auto.
  - unfold bind. rewrite (occupied_free word (r, c) w2) by congruence.
    apply Hgrow; [exact Hout|]. split; [exact Hrc|]. intros ?. contradiction.
Qed.

Lemma place_starved size word g f :
  1 <= size -> wf_grid size g ->
  (forall ps, NoDup ps -> Forall (eligible size word g f) ps ->
              (length ps < length word)%nat) ->
  forall fuel rng, fst (place_word_scattered fuel word size (MkWorld g f rng)) = OutOfFuel.
Proof.
  intros Hsize Hwf Hfew fuel rng. unfold place_word_scattered.
  destruct fuel as [|n]; [reflexivity|].
  simpl. unfold attempt, bind.
  pose proof (sample_starved size word g f Hsize Hwf Hfew (S n) [] ∅
                (MkWorld g f rng) eq_refl eq_refl eq_refl ltac:(constructor) ltac:(constructor))
    as Hs.
  destruct (sample (S n) word size [] ∅ (MkWorld g f rng)) as [[ps|e|] w1];
    simpl in Hs; try discriminate. reflexivity.
Qed.

Lemma ex_all_foreign ps :
  NoDup ps -> Forall (eligible 2 ex_AB ex_grid ex_all) ps ->
  (length ps < length ex_AB)%nat.
Proof.
  intros _ Hel. destruct ps as [|[r c] ps]; [simpl; lia|].
  exfalso. apply Forall_cons in Hel as [[[Hr Hc] Hocc] _]. simpl in Hr, Hc.
  assert (Hin : (r, c) ∈ ex_all).
  { unfold ex_all. apply elem_of_list_to_set.
    assert (Hr' : r = 0 \/ r = 1) by lia. assert (Hc' : c = 0 \/ c = 1) by lia.
    destruct Hr' as [-> | ->], Hc' as [-> | ->];
      repeat (first [apply list_elem_of_here | apply list_elem_of_further]). }
  destruct (Hocc Hin) as (ch & Hread & Hch).
  assert (Hx : ch = 88%N).
  { assert (Hr' : r = 0 \/ r = 1) by lia. assert (Hc' : c = 0 \/ c = 1) by lia.
    destruct Hr' as [-> | ->], Hc' as [-> | ->]; vm_compute in Hread; congruence. }
  subst ch. revert Hch. apply (bool_decide_eq_false_1 (88%N ∈ ex_AB)). reflexivity.
Qed.

(** ** Words longer than the grid *)

Lemma long_word_few_cells size (word : str) (ps : list coord) :
  size * size < Z.of_nat (length word) ->
  NoDup ps -> Forall (in_range size) ps ->
  (length ps < length word)%nat.
Proof.
  intros Hlong Hnd Hr. pose proof (distinct_coords_bound size ps Hnd Hr) as Hb.
  nia.
Qed.

Lemma nre_ret {A} (a : A) : no_runtime_error (ret a).
Proof. intros w e w' H. discriminate. Qed.

Lemma nre_out_of_fuel {A} : no_runtime_error (@out_of_fuel A).
Proof. intros w e w' H. discriminate. Qed.

Lemma nre_bind {A B} (m : M A) (k : A -> M B) :
  no_runtime_error m -> (forall a, no_runtime_error (k a)) ->
  no_runtime_error (bind m k).
Proof.
  intros Hm Hk w e w' H.
  destruct (bind_cases _ _ _ _ _ H) as [(a & w1 & H1 & H2) | [(e' & H1 & He) | (_ & He)]].
  - exact (Hk _ _ _ _ H2).
  - inversion He; subst. exact (Hm _ _ _ H1).
  - discriminate.
Qed.

Lemma nre_in_forbidden rc : no_runtime_error (in_forbidden rc).
Proof. intros w e w' H. discriminate. Qed.

Lemma nre_grid_get rc : no_runtime_error (grid_get rc).
Proof.
  intros w e w'. unfold grid_get.
  destruct (grid_read (w_grid w) rc); intros H; inversion H; subst. discriminate.
Qed.

Lemma nre_randint a b : no_runtime_error (randint a b).
Proof.
  unfold randint. destruct (b - a + 1 <=? 0).
  - intros w e w' H. inversion H; subst. discriminate.
  - apply nre_bind; [intros w e w' H; discriminate | intros; apply nre_ret].
Qed.

Create HintDb nre.
#[local] Hint Resolve nre_ret nre_out_of_fuel nre_in_forbidden nre_grid_get
  nre_randint : nre.

Ltac nre_step :=
  match goal with
  | |- no_runtime_error (bind _ _) => apply nre_bind; [| intros ?]
  | |- no_runtime_error (if ?b then _ else _) => destruct b
  | |- no_runtime_error _ => solve [auto with nre]
  end.

Lemma nre_sample fuel word size : forall positions chosen,
  no_runtime_error (sample fuel word size positions chosen).
Proof.
  induction fuel as [|fuel IH]; intros positions chosen; simpl;
    destruct (length positions <? length word)%nat; auto with nre.
  unfold occupied_by_foreign_letter. repeat nre_step; auto.
Qed.

Lemma nre_validate pairs : no_runtime_error (validate pairs).
Proof.
  induction pairs as [|[rc ch] rest IH]; simpl; auto with nre.
  repeat nre_step; auto.
Qed.

Lemma nre_attempt fuel word size : no_runtime_error (attempt fuel word size).
Proof.
  unfold attempt. pose proof nre_sample. pose proof nre_validate.
  repeat nre_step; auto.
Qed.

Lemma attempt_Done_sampled fuel word size w res w' :
  attempt fuel word size w = (Done res, w') ->
  exists raw w1, sample fuel word size [] ∅ w = (Done raw, w1).
Proof.
  unfold attempt. intros H. apply bind_Done in H as (raw & w1 & Hs & _). eauto.
Qed.

(** ** Exhausting the attempt budget *)

Lemma place_loop_exhausted fuel word size : forall k n attempts w w',
  failed_attempts k fuel word size w = Some w' ->
  attempts + Z.of_nat k = max_attempts ->
  (k < n)%nat ->
  place_loop n fuel word size attempts w = (Raise (RuntimeError word), w').
Proof.
  induction k as [|k IH]; intros n attempts w w' Hfail Hcount Hn;
    (destruct n as [|n]; [lia|]); cbn [place_loop failed_attempts] in *.
  - destruct (Z.gtb_spec (attempts + 1) max_attempts) as [_|Hle]; [|lia].
    inversion Hfail; subst. reflexivity.
  - destruct (Z.gtb_spec (attempts + 1) max_attempts) as [Hgt|_]; [lia|].
    unfold bind.
    destruct (attempt fuel word size w) as [[[sp|]|e|] w1]; try discriminate.
    apply IH; [exact Hfail | lia | lia].
Qed.




(** ** One pass through the sampling loop *)

Lemma sample_iteration fuel word size positions chosen w r c :
  (length positions < length word)%nat ->
  randint 0 (size - 1) w = (Done r, advance w) ->
  randint 0 (size - 1) (advance w) = (Done c, advance (advance w)) ->
  (r, c) ∉ chosen ->
  sample (S fuel) word size positions chosen w
  = (reject <~ occupied_by_foreign_letter word (r, c);;
     if reject : bool then sample fuel word size positions chosen
     else sample fuel word size (positions ++ [(r, c)]) (chosen ∪ {[(r, c)]}))
      (advance (advance w)).
Proof.
  intros Hlen Hr Hc Hout. cbn [sample].
  apply Nat.ltb_lt in Hlen. rewrite Hlen.
  unfold bind at 1. rewrite Hr. unfold bind at 1. rewrite Hc.
  rewrite bool_decide_eq_false_2 by exact Hout. reflexivity.
Qed.

(** ** Seeding and reproducibility *)

Lemma pure_random_bind {A B} (m : M A) (k : A -> M B) :
  pure_random m -> (forall a, pure_random (k a)) -> pure_random (bind m k).
Proof.
  intros Hm Hk rs. destruct (Hm rs) as (a & rs1 & H1).
  destruct (Hk a rs1) as (b & rs2 & H2).
  exists b, rs2. intros g f. unfold bind. rewrite H1. apply H2.
Qed.

Lemma pure_random_ret {A} (a : A) : pure_random (ret a).
Proof. intros rs. exists a, rs. reflexivity. Qed.

Lemma pure_random_choice_letters : pure_random (choice letters).
Proof.
  intros rs.
  set (k := Z.of_N (tape rs (cursor rs)) mod Z.of_nat (length letters)).
  assert (Hk : 0 <= k < Z.of_nat (length letters)).
  { apply Z.mod_pos_bound. simpl. lia. }
  destruct (lookup_lt_is_Some_2 letters (Z.to_nat k)) as [x Hx]; [lia|].
  exists x, (MkRng (tape rs) (N.succ (cursor rs))). intros g f.
  unfold choice. destruct (decide (letters = [])) as [Hnil|_]; [discriminate|].
  unfold bind, randbelow. cbn [w_random with_random w_grid w_forbidden].
  fold k. rewrite Hx. reflexivity.
Qed.

Lemma pure_random_repeatM {A} (m : M A) n : pure_random m -> pure_random (repeatM n m).
Proof.
  intros Hm. induction n as [|n IH]; simpl.
  - apply pure_random_ret.
  - apply pure_random_bind; [exact Hm|]. intros x.
    apply pure_random_bind; [exact IH|]. intros xs. apply pure_random_ret.
Qed.

Lemma pure_random_generate_letter_grid size : pure_random (generate_letter_grid size).
Proof.
  unfold generate_letter_grid.
  apply pure_random_repeatM, pure_random_repeatM, pure_random_choice_letters.
Qed.

(** ** The main program establishes what the placement loop assumes *)

Lemma repeatM_Done {A} (P : A -> Prop) (m : M A) :
  (forall w a w', m w = (Done a, w') -> P a) ->
  forall n w l w', repeatM n m w = (Done l, w') -> length l = n /\ Forall P l.
Proof.
  intros Hm. induction n as [|n IH]; intros w l w' H; simpl in H.
  - inversion H; subst. split; [reflexivity | constructor].
  - apply bind_Done in H as (x & w1 & Hx & H).
    apply bind_Done in H as (xs & w2 & Hxs & H).
    inversion H; subst. apply IH in Hxs as [Hlen Hall].
    split; [simpl; f_equal; exact Hlen | constructor; [exact (Hm _ _ _ Hx) | exact Hall]].
Qed.

Lemma generate_letter_grid_wf size w g w' :
  generate_letter_grid size w = (Done g, w') -> wf_grid size g.
Proof.
  unfold generate_letter_grid. intros H.
  apply (repeatM_Done (fun row => length row = Z.to_nat size)) in H; [exact H|].
  intros w0 row w0' Hrow.
  apply (repeatM_Done (fun _ => True)) in Hrow; [apply Hrow | auto].
Qed.

(** Every configured word is hidden in the grid the main program hands
    over: after a completed run, each word (in upper case) can be read at its
    coordinates. *)
Lemma main_words_hidden generator upper RANDOM_SEED size words fuel w masks wps w' :
  main generator upper RANDOM_SEED size words fuel w = (Done (masks, wps), w') ->
  Forall2 (letter_at (w_grid w')) wps (map upper words).
Proof.
  unfold main. intros H.
  apply bind_Done in H as ([] & w1 & _ & H).
  apply bind_Done in H as (g & w2 & Hg & H).
  apply bind_Done in H as ([] & w3 & Hbg & H).
  apply bind_Done in H as ([] & w4 & Hbf & H).
  unfold bind_grid in Hbg. unfold bind_forbidden in Hbf.
  inversion Hbg; subst w3. inversion Hbf; subst w4. clear Hbg Hbf.
  apply generate_letter_grid_wf in Hg.
  assert (Hstart : run_inv size (with_forbidden ∅ (with_grid g w2)) [] [])
    by (apply run_inv_start; [exact Hg | reflexivity]).
  exact (inv_letters _ _ _ _ (place_words_inv _ _ _ _ _ _ _ _ _ _ Hstart H)).
Qed.

(** * The properties *)



(** C2 (consistency under overlap). After the whole placement sequence, run
    on a well-formed grid from an empty set [forbidden], whenever two placed
    words share a coordinate, the grid holds there the letter that each of
    the two words assigns to it by its own reading-order position. Within
    one placement, a returned placement has been validated: every coordinate
    of it that was already occupied holds exactly the letter the new word
    assigns there; and an attempt whose sorted coordinates mismatch the grid
    at an occupied coordinate is discarded as a whole. *)
Theorem overlap_consistency :
  (forall fuel size words w masks wps w',
      wf_grid size (w_grid w) ->
      w_forbidden w = ∅ ->
      place_words fuel size words [] [] w = (Done (masks, wps), w') ->
      forall i j wi wj pi pj a b rc,
        words !! i = Some wi -> words !! j = Some wj ->
        wps !! i = Some pi -> wps !! j = Some pj ->
        pi !! a = Some rc -> pj !! b = Some rc ->
        exists ch, grid_read (w_grid w') rc = Some ch
                   /\ wi !! a = Some ch /\ wj !! b = Some ch)
  /\ (forall fuel word size w ps w1,
         place_word_scattered fuel word size w = (Done ps, w1) ->
         forall i rc ch,
           ps !! i = Some rc -> word !! i = Some ch ->
           rc ∈ w_forbidden w ->
           grid_read (w_grid w) rc = Some ch)
  /\ (forall fuel word size w raw w1,
         sample fuel word size [] ∅ w = (Done raw, w1) ->
         Exists (fun p => fst p ∈ w_forbidden w
                          /\ grid_read (w_grid w) (fst p) <> Some (snd p))
                (zip (sorted raw) word) ->
         forall ps w2, attempt fuel word size w <> (Done (Some ps), w2)).
Proof.
  split; [|split].
  - intros fuel size words w masks wps w' Hwf Hempty Hrun
           i j wi wj pi pj a b rc Hwi Hwj Hpi Hpj Ha Hb.
    pose proof (place_words_inv _ _ _ _ _ _ _ _ _ _ (run_inv_start _ _ Hwf Hempty) Hrun)
      as [_ _ _ Hletters].
    simpl in Hletters.
    apply Forall2_same_length_lookup in Hletters as [_ Hletters].
    destruct (letter_at_lookup _ _ _ _ _ (Hletters i pi wi Hpi Hwi) Ha)
      as (ch & Hcha & Hread).
    destruct (letter_at_lookup _ _ _ _ _ (Hletters j pj wj Hpj Hwj) Hb)
      as (ch' & Hchb & Hread').
    exists ch. split; [exact Hread|]. split; [exact Hcha|]. congruence.
  - intros fuel word size w ps w1 Hp i rc ch Hi Hw Hocc.
    apply place_word_scattered_Done in Hp as [_ _ _ _ Hag].
    eapply agrees_lookup; eauto.
  - intros fuel word size w raw w1 Hs Hbad ps w2 Ha.
    pose proof (attempt_Some _ _ _ _ _ _ Ha) as [_ _ _ _ Hag].
    unfold attempt, bind in Ha. rewrite Hs in Ha.
    destruct (validate (zip (sorted raw) word) w1) as [[[|]|e|] w3];
      inversion Ha; subst; clear Ha.
    unfold agrees in Hag. rewrite Forall_forall in Hag.
    apply Exists_exists in Hbad as (p & Hp & Hin & Hne).
    exact (Hne (Hag p Hp Hin)).
Qed.

Lemma overlap_consistency_witness :
  wf_grid 2 (w_grid ex_world)
  /\ w_forbidden ex_world = ∅
  /\ (exists ch, grid_read (w_grid ex_world_2) (0, 1) = Some ch
                 /\ ex_AB !! 1%nat = Some ch /\ ex_BA !! 0%nat = Some ch)
  /\ (0, 1) ∈ w_forbidden ex_world_1
  /\ grid_read (w_grid ex_world_1) (0, 1) = Some 66%N.
Proof.
  destruct overlap_consistency as (Hrun & Hcall & _).
  assert (Hocc : (0, 1) ∈ w_forbidden ex_world_1)
    by (apply (bool_decide_unpack _); vm_compute; exact I).
  split; [exact ex_grid_wf|]. split; [reflexivity|]. split; [|split; [exact Hocc|]].
  - exact (Hrun 3%nat 2 [ex_AB; ex_BA] ex_world _ _ ex_world_2
             ex_grid_wf eq_refl ex_place_words
             0%nat 1%nat ex_AB ex_BA [(0, 0); (0, 1)] [(0, 1); (1, 0)] 1%nat 0%nat (0, 1)
             eq_refl eq_refl eq_refl eq_refl eq_refl eq_refl).
  - exact (Hcall 3%nat ex_BA 2 ex_world_1 [(0, 1); (1, 0)]
             (MkWorld (w_grid ex_world_1) (w_forbidden ex_world_1) (MkRng ex_tape 8))
             ltac:(vm_compute; reflexivity) 0%nat (0, 1) 66%N eq_refl eq_refl Hocc).
Defined.

(** C3 (shape of a placement). Every placement that [place_word_scattered]
    returns has as many coordinates as the word has characters, its
    coordinates are pairwise distinct, and it is sorted in reading order,
    lexicographically by (row, column). *)
Theorem placement_shape fuel word size w ps w' :
  place_word_scattered fuel word size w = (Done ps, w') ->
  length ps = length word /\ NoDup ps /\ StronglySorted reading_le ps.
Proof.
  intros Hp. apply place_word_scattered_Done in Hp as [Hlen Hnd _ Hso _]. auto.
Qed.

Lemma placement_shape_witness :
  place_word_scattered 3 ex_AB 2 ex_world = (Done [(0, 0); (0, 1)], ex_world_AB)
  /\ length [(0, 0); (0, 1)] = length ex_AB
  /\ NoDup [(0, 0); (0, 1)]
  /\ StronglySorted reading_le [(0, 0); (0, 1)].
Proof.
  split; [exact ex_place_AB|].
  exact (placement_shape 3 ex_AB 2 ex_world [(0, 0); (0, 1)] ex_world_AB ex_place_AB).
Defined.

(** C4 (determinism). With a seed, the run of the main program is a function
    of the seed, the grid size and the word list alone: two runs that start
    in different states of the process (another random state, other values
    left in [grid] and [forbidden]) end with the same result, that is the
    same per-word coordinate sequences and masks or the same failure, and in
    the same final state, that is with identical grids. The alphabet is the
    constant [letters]. *)
Theorem seeded_run_deterministic generator upper seed size words fuel w1 w2 :
  main generator upper (Some seed) size words fuel w1
  = main generator upper (Some seed) size words fuel w2.
Proof.
  destruct (pure_random_generate_letter_grid size (MkRng (generator seed) 0))
    as (g & rs & Hgen).
  assert (Hrun : forall w,
             main generator upper (Some seed) size words fuel w
             = place_words fuel size (map upper words) [] [] (MkWorld g ∅ rs)).
  { intros [g0 f0 r0]. unfold main, bind, seed_random, with_random.
    cbn [w_grid w_forbidden w_random]. rewrite Hgen. reflexivity. }
  rewrite !Hrun. reflexivity.
Qed.

(** C5 (attempt budget). When the first 5000 attempts have all been
    completed and discarded, [place_word_scattered] makes no further attempt:
    it raises the error naming the word. No coordinates are returned, and
    the grid and the set [forbidden] are as before the call. *)
Theorem budget_exhausted_raises fuel word size w w' :
  (Z.to_nat max_attempts < fuel)%nat ->
  failed_attempts (Z.to_nat max_attempts) fuel word size w = Some w' ->
  place_word_scattered fuel word size w = (Raise (RuntimeError word), w')
  /\ w_grid w' = w_grid w /\ w_forbidden w' = w_forbidden w.
Proof.
  intros Hfuel Hfail.
  assert (H : place_word_scattered fuel word size w = (Raise (RuntimeError word), w')).
  { unfold place_word_scattered.
    eapply place_loop_exhausted; [exact Hfail | | exact Hfuel].
    rewrite Z2Nat.id; [reflexivity | unfold max_attempts; lia]. }
  split; [exact H|].
  apply place_word_scattered_read_only in H as (Hg & Hf & _). auto.
Qed.

Lemma budget_exhausted_raises_witness :
  (Z.to_nat max_attempts < S (Z.to_nat max_attempts))%nat
  /\ place_word_scattered (S (Z.to_nat max_attempts)) ex_AB 2 ex_world_B
     = (Raise (RuntimeError ex_AB),
        with_random (MkRng ex_tape_pairs 20000%N) ex_world_B).
Proof.
  assert (Hfuel : (Z.to_nat max_attempts < S (Z.to_nat max_attempts))%nat)
    by apply Nat.lt_succ_diag_r.
  split; [exact Hfuel|].
  apply (budget_exhausted_raises (S (Z.to_nat max_attempts)) ex_AB 2 ex_world_B
           (with_random (MkRng ex_tape_pairs 20000%N) ex_world_B) Hfuel).
  vm_compute. reflexivity.
Defined.

(** A word with more characters than the grid has cells is never placed, and
    it is not reported through attempt exhaustion either: no RuntimeError is
    raised for it. *)
Theorem long_word_never_placed fuel word size w :
  size * size < Z.of_nat (length word) ->
  (forall ps w', place_word_scattered fuel word size w <> (Done ps, w'))
  /\ (forall x w', place_word_scattered fuel word size w <> (Raise (RuntimeError x), w')).
Proof.
  intros Hlong.
  assert (Hnever : forall raw w1, sample fuel word size [] ∅ w <> (Done raw, w1)).
  { intros raw w1 Hs.
    apply sample_Done in Hs as (Hnd & Hr & Hlen);
      [| reflexivity | constructor | constructor | simpl; lia].
    pose proof (long_word_few_cells size word raw Hlong Hnd Hr). lia. }
  split.
  - intros ps w' Hp.
    apply place_word_scattered_Done in Hp as [Hlen Hnd Hr _ _].
    pose proof (long_word_few_cells size word ps Hlong Hnd Hr). lia.
  - intros x w' Hp. unfold place_word_scattered in Hp.
    destruct fuel as [|n]; [discriminate|].
    cbn [place_loop] in Hp.
    change (0 + 1 >? max_attempts) with false in Hp. cbv iota in Hp.
    destruct (bind_cases _ _ _ _ _ Hp) as [(res & w1 & H1 & _) | [(e & H1 & He) | (_ & He)]].
    + apply attempt_Done_sampled in H1 as (raw & w2 & Hs). exact (Hnever _ _ Hs).
    + inversion He; subst. exact (nre_attempt _ _ _ _ _ _ H1 x eq_refl).
    + discriminate.
Qed.

Lemma long_word_never_placed_witness :
  1 * 1 < Z.of_nat (length ex_AB)
  /\ (forall ps w', place_word_scattered 7 ex_AB 1 ex_world <> (Done ps, w'))
  /\ (forall x w',
         place_word_scattered 7 ex_AB 1 ex_world <> (Raise (RuntimeError x), w')).
Proof.
  split; [simpl; lia|].
  apply (long_word_never_placed 7 ex_AB 1 ex_world). simpl. lia.
Defined.

(** C6 (words longer than the grid), the code at the failing input. The word
    AB has more letters than a grid of size 1 has cells. The program makes
    no length check before placement: the call starts sampling, takes the
    only cell, and from then on draws that cell again and again. Whatever
    the random source delivers and however long the call is followed,
    [place_word_scattered] neither rejects the word (no error of any kind is
    raised) nor returns. *)
Theorem long_word_is_not_rejected fuel rng :
  fst (place_word_scattered fuel ex_AB 1 (MkWorld [[88%N]] ∅ rng)) = OutOfFuel.
Proof.
  apply place_starved; [lia | split; [reflexivity | repeat constructor] |].
  intros ps Hnd Hel. apply (long_word_few_cells 1 ex_AB ps); [simpl; lia | exact Hnd |].
  eapply Forall_impl; [exact Hel|]. intros rc [Hrc _]. exact Hrc.
Qed.

(** C7 (termination), the code at the failing input. With the word AB, grid
    size 2, every cell occupied and holding X, the sampling loop rejects
    every draw: whatever the random source delivers and however long the
    call is followed, [place_word_scattered] neither returns nor raises. The
    attempt counter is never consulted a second time. *)
Theorem sampling_loop_unbounded fuel rng :
  fst (place_word_scattered fuel ex_AB 2 (MkWorld ex_grid ex_all rng)) = OutOfFuel.
Proof.
  apply place_starved; [lia | exact ex_grid_wf | exact ex_all_foreign].
Qed.

(** C8 (occupancy filter). In one pass of the sampling loop that draws a
    coordinate not yet chosen in this attempt: if the coordinate is not in
    the occupancy set it is taken; if it is in the occupancy set, it is
    rejected, and the loop draws again with its selection unchanged, exactly
    when the letter stored in the grid there does not occur in the word, and
    it is taken when the letter occurs in the word. The filter itself
    answers "reject" if and only if the coordinate is occupied and its
    letter is foreign to the word. *)
Theorem occupancy_filter fuel word size positions chosen w r c :
  (length positions < length word)%nat ->
  randint 0 (size - 1) w = (Done r, advance w) ->
  randint 0 (size - 1) (advance w) = (Done c, advance (advance w)) ->
  (r, c) ∉ chosen ->
  let w2 := advance (advance w) in
  let this_pass := sample (S fuel) word size positions chosen w in
  let drawn_again := sample fuel word size positions chosen w2 in
  let taken :=
    sample fuel word size (positions ++ [(r, c)]) (chosen ∪ {[(r, c)]}) w2 in
  ((r, c) ∉ w_forbidden w -> this_pass = taken)
  /\ (forall existing,
         (r, c) ∈ w_forbidden w ->
         grid_read (w_grid w) (r, c) = Some existing ->
         (existing ∉ word -> this_pass = drawn_again)
         /\ (existing ∈ word -> this_pass = taken))
  /\ (forall reject w',
         occupied_by_foreign_letter word (r, c) w2 = (Done reject, w') ->
         (reject = true <->
          (r, c) ∈ w_forbidden w
          /\ exists existing, grid_read (w_grid w) (r, c) = Some existing
                              /\ existing ∉ word)).
Proof.
  intros Hlen Hr Hc Hout w2 this_pass drawn_again taken.
  assert (Hstep := sample_iteration fuel word size positions chosen w r c Hlen Hr Hc Hout).
  fold w2 in Hstep. unfold this_pass. rewrite Hstep. clear Hstep.
  split; [|split].
  - intros Hfree. unfold bind.
    rewrite (occupied_free word (r, c) w2) by exact Hfree. reflexivity.
  - intros existing Hocc Hread. unfold bind.
    rewrite (occupied_taken word (r, c) w2 existing Hocc Hread).
    split; intros Hw.
    + rewrite bool_decide_eq_false_2 by exact Hw. reflexivity.
    + rewrite bool_decide_eq_true_2 by exact Hw. reflexivity.
  - intros reject w' Hrej. apply occupied_Done in Hrej as [_ Hiff]. exact Hiff.
Qed.

Lemma occupancy_filter_witness :
  (length (@nil coord) < length ex_BA)%nat
  /\ sample 3 ex_BA 2 [] ∅ ex_world_1
     = sample 2 ex_BA 2 ([] ++ [(0, 1)]) (∅ ∪ {[(0, 1)]}) (advance (advance ex_world_1)).
Proof.
  assert (Hlen : (length (@nil coord) < length ex_BA)%nat) by (simpl; lia).
  assert (Hout : (0, 1) ∉ (∅ : gset coord)) by apply not_elem_of_empty.
  assert (Hocc : (0, 1) ∈ w_forbidden ex_world_1)
    by (apply (bool_decide_unpack _); vm_compute; exact I).
  assert (Hin : 66%N ∈ ex_BA) by apply list_elem_of_here.
  split; [exact Hlen|].
  exact (proj2 (proj1 (proj2
           (occupancy_filter 2 ex_BA 2 [] ∅ ex_world_1 0 1 Hlen eq_refl eq_refl Hout))
           66%N Hocc eq_refl) Hin).
Defined.

(** C9 (monotonic occupancy). In the placement loop started with an empty
    set [forbidden], the set after placing one more word is a superset of
    the set before it, and at each point it is the union of the coordinate
    sets of all the words placed so far. *)
Theorem occupancy_monotone fuel size ws word w masks wps w2 :
  w_forbidden w = ∅ ->
  place_words fuel size (ws ++ [word]) [] [] w = (Done (masks, wps), w2) ->
  exists masks1 wps1 w1 ps,
    place_words fuel size ws [] [] w = (Done (masks1, wps1), w1)
    /\ wps = wps1 ++ [ps]
    /\ w_forbidden w1 = ⋃ (list_to_set <$> wps1)
    /\ w_forbidden w2 = ⋃ (list_to_set <$> wps)
    /\ w_forbidden w1 ⊆ w_forbidden w2.
Proof.
  intros Hempty H. rewrite place_words_app in H.
  apply bind_Done in H as ([masks1 wps1] & w1 & H1 & H2). cbn [fst snd] in H2.
  exists masks1, wps1, w1.
  pose proof (place_words_occupancy _ _ _ _ _ _ _ _ _ H1)
    as (new1 & Hw1 & _ & _ & Hf1).
  apply place_words_occupancy in H2 as (new2 & Hw2 & _ & Hlen2 & Hf2).
  simpl in Hw1. subst wps1.
  destruct new2 as [|ps [|? ?]]; simpl in Hlen2; try discriminate.
  exists ps. rewrite Hempty, union_empty_l_L in Hf1.
  split; [exact H1|]. split; [exact Hw2|]. split; [exact Hf1|]. split.
  - rewrite Hf2, Hf1, Hw2, fmap_app, union_list_app_L. reflexivity.
  - rewrite Hf2. apply union_subseteq_l.
Qed.

Lemma occupancy_monotone_witness :
  w_forbidden ex_world = ∅
  /\ exists masks1 wps1 w1 ps,
       place_words 3 2 [ex_AB] [] [] ex_world = (Done (masks1, wps1), w1)
       /\ [[(0, 0); (0, 1)]; [(0, 1); (1, 0)]] = wps1 ++ [ps]
       /\ w_forbidden w1 = ⋃ (list_to_set <$> wps1)
       /\ w_forbidden ex_world_2
          = ⋃ (list_to_set <$> [[(0, 0); (0, 1)]; [(0, 1); (1, 0)]])
       /\ w_forbidden w1 ⊆ w_forbidden ex_world_2.
Proof.
  split; [reflexivity|].
  exact (occupancy_monotone 3 2 [ex_AB] ex_BA ex_world _ _ ex_world_2
           eq_refl ex_place_words).
Defined.

(** C10 (frame). [place_word_scattered] itself changes neither the grid nor
    the set [forbidden]: whatever the call ends with, a placement or the
    error after the attempt budget is exhausted, both are exactly as they
    were before the call. *)
Theorem place_word_scattered_frame fuel word size w :
  w_grid (snd (place_word_scattered fuel word size w)) = w_grid w
  /\ w_forbidden (snd (place_word_scattered fuel word size w)) = w_forbidden w.
Proof.
  destruct (place_word_scattered fuel word size w) as [r w'] eqn:H.
  apply place_word_scattered_read_only in H as (Hg & Hf & _). auto.
Qed.

(** * Further properties of the placement engine *)

(** ** Helper lemmas *)

Lemma validate_unoccupied pairs : forall w,
  Forall (fun p => fst p ∉ w_forbidden w) pairs ->
  validate pairs w = (Done true, w).
Proof.
  induction pairs as [|[rc ch] rest IH]; intros w Hfree; [reflexivity|].
  apply Forall_cons in Hfree as [Hrc Hrest]. simpl in Hrc.
  cbn [validate]. unfold bind at 1. unfold in_forbidden.
  rewrite bool_decide_eq_false_2 by exact Hrc. apply IH, Hrest.
Qed.

Lemma Forall_zip_fst {A B} (P : A -> Prop) (l : list A) (k : list B) :
  Forall P l -> Forall (fun p => P (fst p)) (zip l k).
Proof.
  revert k. induction l as [|x l IH]; intros [|y k] H; simpl; try constructor.
  - apply Forall_cons in H as [Hx _]. exact Hx.
  - apply Forall_cons in H as [_ Hl]. apply IH, Hl.
Qed.

Lemma place_loop_first_attempt n fuel word size w ps w1 :
  attempt fuel word size w = (Done (Some ps), w1) ->
  place_loop (S n) fuel word size 0 w = (Done ps, w1).
Proof.
  intros Ha. cbn [place_loop].
  change (0 + 1 >? max_attempts) with false. cbv iota.
  unfold bind. rewrite Ha. reflexivity.
Qed.

Lemma place_loop_RuntimeError fuel word size : forall n attempts w x w',
  0 <= attempts <= max_attempts ->
  place_loop n fuel word size attempts w = (Raise (RuntimeError x), w') ->
  x = word
  /\ failed_attempts (Z.to_nat (max_attempts - attempts)) fuel word size w = Some w'.
Proof.
  induction n as [|n IH]; intros attempts w x w' Hrange H; [discriminate|].
  cbn [place_loop] in H.
  destruct (Z.gtb_spec (attempts + 1) max_attempts) as [Hgt|Hle].
  - inversion H; subst.
    replace (max_attempts - attempts) with 0 by lia. split; reflexivity.
  - destruct (bind_cases _ _ _ _ _ H) as [(res & w1 & Ha & Hk) | [(e & Ha & He) | (_ & He)]];
      [| inversion He; subst; exfalso; exact (nre_attempt _ _ _ _ _ _ Ha x eq_refl)
       | discriminate].
    destruct res as [sp|]; [discriminate|].
    apply IH in Hk as [-> Hfail]; [|lia]. split; [reflexivity|].
    replace (Z.to_nat (max_attempts - attempts))
      with (S (Z.to_nat (max_attempts - (attempts + 1)))) by lia.
    cbn [failed_attempts]. rewrite Ha. exact Hfail.
Qed.

Lemma sample_wf_no_raise size word :
  1 <= size ->
  forall fuel positions chosen w e w',
    wf_grid size (w_grid w) ->
    sample fuel word size positions chosen w <> (Raise e, w').
Proof.
  intros Hsize.
  induction fuel as [|fuel IH]; intros positions chosen w e w' Hwf; cbn [sample];
    destruct (length positions <? length word)%nat; try discriminate.
  destruct (randint_total 0 (size - 1) w) as (r & Hr & Hrr); [lia|].
  destruct (randint_total 0 (size - 1) (advance w)) as (c & Hc & Hcr); [lia|].
  unfold bind at 1. rewrite Hr. unfold bind at 1. rewrite Hc.
  set (w2 := advance (advance w)).
  assert (Hwf2 : wf_grid size (w_grid w2)) by exact Hwf.
  destruct (bool_decide ((r, c) ∈ chosen)); [apply IH, Hwf2|].
  unfold bind.
  destruct (decide ((r, c) ∈ w_forbidden w2)) as [Hocc|Hfree].
  - destruct (grid_read_Some size (w_grid w2) (r, c) Hwf2) as (existing & Hread);
      [unfold in_range; simpl; lia|].
    rewrite (occupied_taken word (r, c) w2 existing Hocc Hread).
    destruct (negb (bool_decide (existing ∈ word))); apply IH, Hwf2.
  - rewrite (occupied_free word (r, c) w2 Hfree). apply IH, Hwf2.
Qed.

Lemma validate_wf_no_raise size pairs : forall w e w',
  wf_grid size (w_grid w) ->
  Forall (fun p => in_range size (fst p)) pairs ->
  validate pairs w <> (Raise e, w').
Proof.
  induction pairs as [|[rc ch] rest IH]; intros w e w' Hwf Hr; [discriminate|].
  apply Forall_cons in Hr as [Hrc Hr]. simpl in Hrc.
  cbn [validate]. unfold bind, in_forbidden, grid_get.
  destruct (bool_decide (rc ∈ w_forbidden w)); [|apply IH; assumption].
  destruct (grid_read_Some size (w_grid w) rc Hwf Hrc) as (existing & ->).
  destruct (bool_decide (existing ≠ ch)); [discriminate | apply IH; assumption].
Qed.

Lemma attempt_wf_no_raise size word fuel w e w' :
  1 <= size -> wf_grid size (w_grid w) ->
  attempt fuel word size w <> (Raise e, w').
Proof.
  intros Hsize Hwf H. unfold attempt in H.
  destruct (bind_cases _ _ _ _ _ H) as [(raw & w1 & Hs & Hk) | [(e' & Hs & _) | (_ & He)]];
    [| exact (sample_wf_no_raise size word Hsize _ _ _ _ _ _ Hwf Hs) | discriminate].
  destruct (read_only_sample _ _ _ _ _ _ _ _ Hs) as (Hg & _ & _).
  apply sample_Done in Hs as (_ & Hr & _);
    [| reflexivity | constructor | constructor | simpl; lia].
  destruct (bind_cases _ _ _ _ _ Hk) as [(b & w2 & _ & Hb) | [(e' & Hv & _) | (_ & He)]];
    [destruct b; discriminate | | discriminate].
  eapply (validate_wf_no_raise size); [| | exact Hv].
  - rewrite Hg. exact Hwf.
  - apply Forall_zip_fst, sorted_Forall, Hr.
Qed.

Lemma place_loop_wf_raise size word fuel :
  1 <= size ->
  forall n attempts w e w',
    wf_grid size (w_grid w) ->
    place_loop n fuel word size attempts w = (Raise e, w') ->
    e = RuntimeError word.
Proof.
  intros Hsize.
  induction n as [|n IH]; intros attempts w e w' Hwf H; [discriminate|].
  cbn [place_loop] in H.
  destruct (attempts + 1 >? max_attempts); [inversion H; reflexivity|].
  destruct (bind_cases _ _ _ _ _ H) as [(res & w1 & Ha & Hk) | [(e' & Ha & _) | (_ & He)]];
    [| exfalso; exact (attempt_wf_no_raise size word fuel _ _ _ Hsize Hwf Ha)
     | discriminate].
  destruct res as [sp|]; [discriminate|].
  destruct (read_only_attempt _ _ _ _ _ _ Ha) as (Hg & _ & _).
  apply (IH _ _ _ _ ltac:(rewrite Hg; exact Hwf) Hk).
Qed.

Lemma ex_B_exhausted :
  place_word_scattered (S (Z.to_nat max_attempts)) ex_AB 2 ex_world_B
  = (Raise (RuntimeError ex_AB), with_random (MkRng ex_tape_pairs 20000%N) ex_world_B).
Proof. vm_compute. reflexivity. Qed.

(** ** Bounds, edge cases and errors of [place_word_scattered] *)

(** Every coordinate of a returned placement lies in the grid: its row and
    its column are in [0, size). *)
Theorem placement_in_grid fuel word size w ps w' :
  place_word_scattered fuel word size w = (Done ps, w') ->
  Forall (in_range size) ps.
Proof. intros H. apply place_word_scattered_Done in H as [_ _ Hr _ _]. exact Hr. Qed.

Lemma placement_in_grid_witness :
  place_word_scattered 3 ex_AB 2 ex_world = (Done [(0, 0); (0, 1)], ex_world_AB)
  /\ Forall (in_range 2) [(0, 0); (0, 1)].
Proof.
  split; [exact ex_place_AB|].
  exact (placement_in_grid 3 ex_AB 2 ex_world [(0, 0); (0, 1)] ex_world_AB ex_place_AB).
Defined.

(** When none of the coordinates selected in the first attempt is occupied
    (in particular for the first word, when [forbidden] is empty), the first
    attempt passes validation and is returned: the result is the first
    selection, sorted into reading order, in the world the sampling loop
    ended in. *)
Theorem unoccupied_selection_is_returned fuel word size w raw w1 :
  (0 < fuel)%nat ->
  sample fuel word size [] ∅ w = (Done raw, w1) ->
  Forall (fun rc => rc ∉ w_forbidden w) raw ->
  place_word_scattered fuel word size w = (Done (sorted raw), w1).
Proof.
  intros Hfuel Hs Hfree. unfold place_word_scattered.
  destruct fuel as [|n]; [lia|].
  apply place_loop_first_attempt. unfold attempt, bind. rewrite Hs.
  destruct (read_only_sample _ _ _ _ _ _ _ _ Hs) as (_ & Hf & _).
  rewrite validate_unoccupied; [reflexivity|].
  rewrite Hf. apply (Forall_zip_fst (fun rc => rc ∉ w_forbidden w)).
  apply sorted_Forall. exact Hfree.
Qed.

Lemma unoccupied_selection_is_returned_witness :
  (0 < 3)%nat
  /\ sample 3 ex_AB 2 [] ∅ ex_world = (Done [(0, 0); (0, 1)], ex_world_AB)
  /\ Forall (fun rc => rc ∉ w_forbidden ex_world) [(0, 0); (0, 1)]
  /\ place_word_scattered 3 ex_AB 2 ex_world
     = (Done (sorted [(0, 0); (0, 1)]), ex_world_AB).
Proof.
  assert (Hfuel : (0 < 3)%nat) by lia.
  assert (Hs : sample 3 ex_AB 2 [] ∅ ex_world = (Done [(0, 0); (0, 1)], ex_world_AB))
    by (vm_compute; reflexivity).
  assert (Hfree : Forall (fun rc => rc ∉ w_forbidden ex_world) [(0, 0); (0, 1)])
    by (repeat constructor; apply not_elem_of_empty).
  split; [exact Hfuel|]. split; [exact Hs|]. split; [exact Hfree|].
  exact (unoccupied_selection_is_returned 3 ex_AB 2 ex_world _ _ Hfuel Hs Hfree).
Defined.

(** The empty word is placed at once: the result is the empty placement, no
    draw is made and nothing is read, whatever the size and the grid. *)
Theorem empty_word_placed fuel size w :
  (0 < fuel)%nat ->
  place_word_scattered fuel [] size w = (Done [], w).
Proof.
  intros Hfuel. destruct fuel as [|n]; [lia|].
  unfold place_word_scattered. apply place_loop_first_attempt.
  unfold attempt, bind. destruct n; reflexivity.
Qed.

Lemma empty_word_placed_witness :
  (0 < 1)%nat /\ place_word_scattered 1 [] (-3) ex_world = (Done [], ex_world).
Proof.
  assert (Hfuel : (0 < 1)%nat) by lia.
  split; [exact Hfuel|]. exact (empty_word_placed 1 (-3) ex_world Hfuel).
Defined.

(** With a grid size of zero or less, a non-empty word makes the first draw
    fail: the call raises ValueError (the empty range of [random.randint]),
    not the placement error, and changes nothing. *)
Theorem nonpositive_size_raises fuel word size w :
  (0 < fuel)%nat -> size <= 0 -> word <> [] ->
  place_word_scattered fuel word size w = (Raise ValueError, w).
Proof.
  intros Hfuel Hsize Hword. destruct fuel as [|n]; [lia|].
  destruct word as [|ch word]; [contradiction|].
  unfold place_word_scattered. cbn [place_loop].
  change (0 + 1 >? max_attempts) with false. cbv iota.
  unfold bind at 1. unfold attempt. unfold bind at 1. cbn [sample length Nat.ltb Nat.leb].
  unfold bind at 1. rewrite randint_empty by lia. reflexivity.
Qed.

Lemma nonpositive_size_raises_witness :
  (0 < 1)%nat /\ 0 <= 0 /\ ex_AB <> []
  /\ place_word_scattered 1 ex_AB 0 ex_world = (Raise ValueError, ex_world).
Proof.
  assert (Hfuel : (0 < 1)%nat) by lia.
  assert (Hsize : 0 <= 0) by lia.
  assert (Hword : ex_AB <> []) by discriminate.
  split; [exact Hfuel|]. split; [exact Hsize|]. split; [exact Hword|].
  exact (nonpositive_size_raises 1 ex_AB 0 ex_world Hfuel Hsize Hword).
Defined.

(** The placement error is raised only by exhaustion: when a call ends in
    RuntimeError, the error names the word of the call, and exactly 5000
    attempts were completed and discarded before it. *)
Theorem runtime_error_means_exhausted fuel word size w x w' :
  place_word_scattered fuel word size w = (Raise (RuntimeError x), w') ->
  x = word
  /\ failed_attempts (Z.to_nat max_attempts) fuel word size w = Some w'.
Proof.
  intros H. unfold place_word_scattered in H.
  apply place_loop_RuntimeError in H; [|unfold max_attempts; lia].
  rewrite Z.sub_0_r in H. exact H.
Qed.

Lemma runtime_error_means_exhausted_witness :
  place_word_scattered (S (Z.to_nat max_attempts)) ex_AB 2 ex_world_B
  = (Raise (RuntimeError ex_AB), with_random (MkRng ex_tape_pairs 20000%N) ex_world_B)
  /\ ex_AB = ex_AB
  /\ failed_attempts (Z.to_nat max_attempts) (S (Z.to_nat max_attempts)) ex_AB 2 ex_world_B
     = Some (with_random (MkRng ex_tape_pairs 20000%N) ex_world_B).
Proof.
  split; [exact ex_B_exhausted|].
  exact (runtime_error_means_exhausted _ _ _ _ _ _ ex_B_exhausted).
Defined.

(** On a well-formed grid of size at least 1, the only exception a call can
    end in is the placement error for its word: neither the draws nor the
    reads of the grid can fail. *)
Theorem well_formed_call_raises_only_RuntimeError fuel word size w e w' :
  1 <= size -> wf_grid size (w_grid w) ->
  place_word_scattered fuel word size w = (Raise e, w') ->
  e = RuntimeError word.
Proof.
  intros Hsize Hwf H. unfold place_word_scattered in H.
  exact (place_loop_wf_raise size word fuel Hsize _ _ _ _ _ Hwf H).
Qed.

Lemma well_formed_call_raises_only_RuntimeError_witness :
  1 <= 2 /\ wf_grid 2 (w_grid ex_world_B)
  /\ place_word_scattered (S (Z.to_nat max_attempts)) ex_AB 2 ex_world_B
     = (Raise (RuntimeError ex_AB), with_random (MkRng ex_tape_pairs 20000%N) ex_world_B)
  /\ RuntimeError ex_AB = RuntimeError ex_AB.
Proof.
  assert (Hsize : 1 <= 2) by lia.
  assert (Hwf : wf_grid 2 (w_grid ex_world_B))
    by (split; [reflexivity | repeat constructor]).
  split; [exact Hsize|]. split; [exact Hwf|]. split; [exact ex_B_exhausted|].
  exact (well_formed_call_raises_only_RuntimeError _ _ _ _ _ _ Hsize Hwf ex_B_exhausted).
Defined.



(** When fewer cells are eligible for a word than it has letters (a cell is
    eligible when it is free or holds a letter of the word), a call on a
    well-formed grid of size at least 1 never ends: it neither returns nor
    raises, whatever the random source delivers. *)
Theorem too_few_eligible_cells_never_ends size word g f fuel rng :
  1 <= size -> wf_grid size g ->
  (forall ps, NoDup ps -> Forall (eligible size word g f) ps ->
              (length ps < length word)%nat) ->
  fst (place_word_scattered fuel word size (MkWorld g f rng)) = OutOfFuel.
Proof. intros Hsize Hwf Hfew. apply place_starved; assumption. Qed.

Lemma too_few_eligible_cells_never_ends_witness :
  1 <= 2 /\ wf_grid 2 ex_grid
  /\ fst (place_word_scattered 9 ex_AB 2 (MkWorld ex_grid ex_all (MkRng ex_tape 0%N)))
     = OutOfFuel.
Proof.
  assert (Hsize : 1 <= 2) by lia.
  split; [exact Hsize|]. split; [exact ex_grid_wf|].
  exact (too_few_eligible_cells_never_ends 2 ex_AB ex_grid ex_all 9 (MkRng ex_tape 0%N)
           Hsize ex_grid_wf ex_all_foreign).
Defined.

(** ** The letter grid *)

Lemma after_draws_0 w : after_draws 0 w = w.
Proof.
  destruct w as [g f [t c]]. unfold after_draws, with_random. simpl.
  rewrite N.add_0_r. reflexivity.
Qed.

Lemma after_draws_add a b w : after_draws b (after_draws a w) = after_draws (a + b) w.
Proof.
  unfold after_draws, with_random. simpl. rewrite N.add_assoc. reflexivity.
Qed.

Lemma advance_after_draws w : advance w = after_draws 1 w.
Proof. unfold advance, after_draws. rewrite N.add_1_r. reflexivity. Qed.

Lemma choice_letters_draw w :
  exists ch, choice letters w = (Done ch, after_draws 1 w) /\ ch ∈ letters.
Proof.
  set (k := Z.of_N (tape (w_random w) (cursor (w_random w))) mod Z.of_nat (length letters)).
  assert (Hk : 0 <= k < Z.of_nat (length letters)).
  { apply Z.mod_pos_bound. simpl. lia. }
  destruct (lookup_lt_is_Some_2 letters (Z.to_nat k)) as [x Hx]; [lia|].
  exists x. split; [|apply list_elem_of_lookup; eauto].
  unfold choice. destruct (decide (letters = [])) as [Hnil|_]; [discriminate|].
  unfold bind, randbelow. fold k. rewrite Hx.
  rewrite <- advance_after_draws. reflexivity.
Qed.

Lemma repeatM_draws {A} (P : A -> Prop) (m : M A) (k : N) :
  (forall w, exists a, m w = (Done a, after_draws k w) /\ P a) ->
  forall n w, exists l,
    repeatM n m w = (Done l, after_draws (N.of_nat n * k) w)
    /\ length l = n /\ Forall P l.
Proof.
  intros Hm. induction n as [|n IH]; intros w.
  - exists []. simpl. rewrite after_draws_0. repeat split. constructor.
  - destruct (Hm w) as (a & Ha & HP).
    destruct (IH (after_draws k w)) as (l & Hl & Hlen & Hall).
    exists (a :: l). split; [|split; [simpl; f_equal; exact Hlen | constructor; assumption]].
    cbn [repeatM]. unfold bind. rewrite Ha, Hl. unfold ret.
    rewrite after_draws_add. do 2 f_equal. lia.
Qed.

Lemma generate_letter_grid_run size w :
  exists g,
    generate_letter_grid size w
    = (Done g, after_draws (N.of_nat (Z.to_nat size * Z.to_nat size)) w)
    /\ wf_grid size g
    /\ Forall (Forall (fun ch => ch ∈ letters)) g.
Proof.
  unfold generate_letter_grid.
  destruct (repeatM_draws
              (fun row => length row = Z.to_nat size /\ Forall (fun ch => ch ∈ letters) row)
              (repeatM (Z.to_nat size) (choice letters))
              (N.of_nat (Z.to_nat size) * 1) ) with (n := Z.to_nat size) (w := w)
    as (g & Hg & Hlen & Hall).
  - intros w0.
    destruct (repeatM_draws (fun ch => ch ∈ letters) (choice letters) 1
                choice_letters_draw (Z.to_nat size) w0) as (row & Hrow & Hl & Hin).
    exists row. auto.
  - exists g. split; [|split].
    + rewrite Hg. do 2 f_equal. lia.
    + split; [exact Hlen|]. eapply Forall_impl; [exact Hall|]. intros row [H _]. exact H.
    + eapply Forall_impl; [exact Hall|]. intros row [_ H]. exact H.
Qed.

(** [generate_letter_grid] always completes. It returns [size] rows of [size]
    cells (none for a size of zero or less), every cell is a letter of the
    alphabet, and it makes exactly one draw per cell. *)
Theorem generate_letter_grid_result size w :
  exists g,
    generate_letter_grid size w
    = (Done g, after_draws (N.of_nat (Z.to_nat size * Z.to_nat size)) w)
    /\ wf_grid size g
    /\ Forall (Forall (fun ch => ch ∈ letters)) g.
Proof. apply generate_letter_grid_run. Qed.

(** ** The commit step *)

Lemma py_index_lt {A} (l : list A) (i : Z) (k : nat) :
  py_index l i = Some k -> (k < length l)%nat.
Proof.
  unfold py_index.
  destruct (Z.ltb_spec i 0).
  - destruct (Z.leb_spec 0 (Z.of_nat (length l) + i)); intros Hk; inversion Hk; lia.
  - destruct (Z.ltb_spec i (Z.of_nat (length l))); intros Hk; inversion Hk; lia.
Qed.

Lemma grid_write_present g rc ch :
  grid_read g rc = Some ch -> grid_write g rc ch = Some g.
Proof.
  unfold grid_read, grid_write, py_getitem, py_setitem.
  destruct (py_index g (fst rc)) as [k|]; [|discriminate].
  destruct (g !! k) as [row|] eqn:Hrow; [|discriminate].
  destruct (py_index row (snd rc)) as [j|]; [|discriminate].
  intros Hch. rewrite (list_insert_id row j ch Hch).
  rewrite (list_insert_id g k row Hrow). reflexivity.
Qed.

Lemma grid_write_absent g rc ch :
  grid_read g rc = None -> grid_write g rc ch = None.
Proof.
  unfold grid_read, grid_write, py_getitem, py_setitem.
  destruct (py_index g (fst rc)) as [k|]; [|reflexivity].
  destruct (g !! k) as [row|]; [|reflexivity].
  destruct (py_index row (snd rc)) as [j|] eqn:Hj; [|reflexivity].
  intros Hnone. apply py_index_lt in Hj.
  apply lookup_ge_None in Hnone. lia.
Qed.

Lemma with_grid_same w : with_grid (w_grid w) w = w.
Proof. destruct w. reflexivity. Qed.

Lemma apply_pairs_present pairs : forall w,
  Forall (fun p => grid_read (w_grid w) (fst p) = Some (snd p)) pairs ->
  apply_pairs pairs w = (Done tt, w).
Proof.
  induction pairs as [|[rc ch] rest IH]; intros w H; [reflexivity|].
  apply Forall_cons in H as [Hrc Hrest]. simpl in Hrc.
  cbn [apply_pairs]. unfold bind, grid_set.
  rewrite (grid_write_present _ _ _ Hrc), with_grid_same. apply IH, Hrest.
Qed.

Lemma apply_pairs_app l1 l2 w :
  apply_pairs (l1 ++ l2) w = (apply_pairs l1;;; apply_pairs l2) w.
Proof.
  revert w. induction l1 as [|[rc ch] l1 IH]; intros w; [reflexivity|].
  cbn [app apply_pairs]. unfold bind.
  destruct (grid_set rc ch w) as [[[]|e|] w1]; try reflexivity.
  rewrite IH. reflexivity.
Qed.

Lemma zip_app_longer {A B} (l1 l2 : list A) (k : list B) :
  zip (l1 ++ l2) k = zip l1 k ++ zip l2 (drop (length l1) k).
Proof.
  revert k. induction l1 as [|x l1 IH]; intros k; [reflexivity|].
  destruct k as [|y k]; simpl.
  - destruct l2; reflexivity.
  - f_equal. apply IH.
Qed.

Lemma apply_pairs_in_range size pairs : forall w,
  wf_grid size (w_grid w) ->
  Forall (fun p => in_range size (fst p)) pairs ->
  exists g',
    apply_pairs pairs w = (Done tt, with_grid g' w)
    /\ wf_grid size g'
    /\ (forall rc, in_range size rc -> rc ∉ pairs.*1 ->
                   grid_read g' rc = grid_read (w_grid w) rc).
Proof.
  induction pairs as [|[rc ch] rest IH]; intros w Hwf Hr.
  - exists (w_grid w). rewrite with_grid_same. auto.
  - apply Forall_cons in Hr as [Hrc Hr]. simpl in Hrc.
    destruct (grid_write_in_range size (w_grid w) rc ch Hwf Hrc)
      as (g1 & Hw & Hwf1 & _ & Hother1).
    destruct (IH (with_grid g1 w) Hwf1 Hr) as (g' & Happ & Hwf' & Hother).
    exists g'. split; [|split; [exact Hwf'|]].
    + cbn [apply_pairs]. unfold bind, grid_set. rewrite Hw, Happ. reflexivity.
    + intros rc' Hrc' Hnin. rewrite fmap_cons in Hnin. simpl in Hnin.
      apply not_elem_of_cons in Hnin as [Hne Hnin].
      rewrite (Hother rc' Hrc' Hnin). simpl. apply Hother1; assumption.
Qed.

Lemma elem_of_zip_fst {A B} (l : list A) (k : list B) x :
  x ∈ (zip l k).*1 -> x ∈ l.
Proof.
  revert k. induction l as [|a l IH]; intros [|b k] H; simpl in H;
    try (apply elem_of_nil in H; contradiction).
  apply elem_of_cons in H as [-> | H]; [apply list_elem_of_here|].
  apply list_elem_of_further. eapply IH, H.
Qed.

(** The commit step cannot fail on coordinates inside a well-formed grid,
    whatever the lengths and even with repeated coordinates. It changes no
    cell other than the listed ones, keeps the shape of the grid, and
    touches neither the set [forbidden] nor the random source. *)
Theorem commit_changes_only_listed_cells size positions word w :
  wf_grid size (w_grid w) ->
  Forall (in_range size) positions ->
  exists g',
    apply_word_to_grid positions word w = (Done tt, with_grid g' w)
    /\ wf_grid size g'
    /\ (forall rc, in_range size rc -> rc ∉ positions ->
                   grid_read g' rc = grid_read (w_grid w) rc).
Proof.
  intros Hwf Hr. unfold apply_word_to_grid.
  destruct (apply_pairs_in_range size (zip positions word) w Hwf)
    as (g' & Happ & Hwf' & Hother).
  - apply Forall_zip_fst, Hr.
  - exists g'. split; [exact Happ|]. split; [exact Hwf'|].
    intros rc Hrc Hnin. apply Hother; [exact Hrc|].
    intros Hin. apply Hnin. eapply elem_of_zip_fst, Hin.
Qed.

Lemma commit_changes_only_listed_cells_witness :
  wf_grid 2 (w_grid ex_world_1)
  /\ Forall (in_range 2) [(0, 1); (1, 0)]
  /\ exists g',
       apply_word_to_grid [(0, 1); (1, 0)] ex_BA ex_world_1
       = (Done tt, with_grid g' ex_world_1)
       /\ wf_grid 2 g'
       /\ (forall rc, in_range 2 rc -> rc ∉ [(0, 1); (1, 0)] ->
                      grid_read g' rc = grid_read (w_grid ex_world_1) rc).
Proof.
  assert (Hwf : wf_grid 2 (w_grid ex_world_1))
    by (split; [reflexivity | repeat constructor]).
  assert (Hr : Forall (in_range 2) [(0, 1); (1, 0)])
    by (repeat constructor; simpl; lia).
  split; [exact Hwf|]. split; [exact Hr|].
  exact (commit_changes_only_listed_cells 2 [(0, 1); (1, 0)] ex_BA ex_world_1 Hwf Hr).
Defined.

(** Committing letters that the grid already holds at their coordinates
    changes nothing at all. *)
Theorem commit_of_present_letters_changes_nothing positions word w :
  Forall (fun p => grid_read (w_grid w) (fst p) = Some (snd p)) (zip positions word) ->
  apply_word_to_grid positions word w = (Done tt, w).
Proof. intros H. unfold apply_word_to_grid. apply apply_pairs_present, H. Qed.

Lemma commit_of_present_letters_changes_nothing_witness :
  Forall (fun p => grid_read (w_grid ex_world_1) (fst p) = Some (snd p))
         (zip [(0, 0); (0, 1)] ex_AB)
  /\ apply_word_to_grid [(0, 0); (0, 1)] ex_AB ex_world_1 = (Done tt, ex_world_1).
Proof.
  assert (H : Forall (fun p => grid_read (w_grid ex_world_1) (fst p) = Some (snd p))
                     (zip [(0, 0); (0, 1)] ex_AB))
    by (repeat constructor).
  split; [exact H|].
  exact (commit_of_present_letters_changes_nothing [(0, 0); (0, 1)] ex_AB ex_world_1 H).
Defined.

(** The commit step is idempotent: committing a placement of distinct
    coordinates a second time leaves the world as the first commit left
    it. *)
Theorem commit_twice_is_commit_once size positions word w :
  wf_grid size (w_grid w) ->
  NoDup positions ->
  Forall (in_range size) positions ->
  length positions = length word ->
  exists w1,
    apply_word_to_grid positions word w = (Done tt, w1)
    /\ apply_word_to_grid positions word w1 = (Done tt, w1).
Proof.
  intros Hwf Hnd Hr Hlen. unfold apply_word_to_grid.
  destruct (apply_pairs_spec size (zip positions word) w Hwf)
    as (g' & Happ & _ & Hall & _).
  - rewrite zip_fst_eq by exact Hlen. exact Hnd.
  - rewrite zip_fst_eq by exact Hlen. exact Hr.
  - exists (with_grid g' w). split; [exact Happ|].
    apply apply_pairs_present. exact Hall.
Qed.

Lemma commit_twice_is_commit_once_witness :
  wf_grid 2 (w_grid ex_world_AB)
  /\ NoDup [(0, 0); (0, 1)]
  /\ Forall (in_range 2) [(0, 0); (0, 1)]
  /\ length [(0, 0); (0, 1)] = length ex_AB
  /\ exists w1,
       apply_word_to_grid [(0, 0); (0, 1)] ex_AB ex_world_AB = (Done tt, w1)
       /\ apply_word_to_grid [(0, 0); (0, 1)] ex_AB w1 = (Done tt, w1).
Proof.
  assert (Hnd : NoDup [(0, 0); (0, 1)]).
  { apply NoDup_cons. split; [|apply NoDup_singleton].
    intros H. apply list_elem_of_singleton in H. discriminate. }
  assert (Hr : Forall (in_range 2) [(0, 0); (0, 1)])
    by (repeat constructor; simpl; lia).
  split; [exact ex_grid_wf|]. split; [exact Hnd|]. split; [exact Hr|].
  split; [reflexivity|].
  exact (commit_twice_is_commit_once 2 [(0, 0); (0, 1)] ex_AB ex_world_AB
           ex_grid_wf Hnd Hr eq_refl).
Defined.

(** The commit step is not atomic. When a coordinate cannot be indexed in
    the grid, the call raises IndexError at it: the letters of the
    coordinates before it stay written, and the coordinates after it are not
    written. *)
Theorem commit_stops_at_unreadable_coordinate good bad rest word w w1 :
  apply_word_to_grid good word w = (Done tt, w1) ->
  (length good < length word)%nat ->
  grid_read (w_grid w1) bad = None ->
  apply_word_to_grid (good ++ bad :: rest) word w = (Raise IndexError, w1).
Proof.
  unfold apply_word_to_grid. intros Hgood Hlen Hbad.
  rewrite zip_app_longer, apply_pairs_app. unfold bind at 1. rewrite Hgood.
  destruct (drop (length good) word) as [|ch word'] eqn:Hdrop.
  - apply (f_equal length) in Hdrop. rewrite length_drop in Hdrop. simpl in Hdrop. lia.
  - cbn [zip zip_with apply_pairs]. unfold bind, grid_set.
    rewrite (grid_write_absent _ _ ch Hbad). reflexivity.
Qed.

Lemma commit_stops_at_unreadable_coordinate_witness :
  apply_word_to_grid [(0, 0)] ex_AB ex_world
  = (Done tt, with_grid [[65; 88]; [88; 88]]%N ex_world)
  /\ (length [(0, 0)] < length ex_AB)%nat
  /\ grid_read (w_grid (with_grid [[65; 88]; [88; 88]]%N ex_world)) (2, 0) = None
  /\ apply_word_to_grid ([(0, 0)] ++ (2, 0) :: [(1, 1)]) [65; 66; 67]%N ex_world
     = (Raise IndexError, with_grid [[65; 88]; [88; 88]]%N ex_world).
Proof.
  assert (Hgood : apply_word_to_grid [(0, 0)] [65; 66; 67]%N ex_world
                  = (Done tt, with_grid [[65; 88]; [88; 88]]%N ex_world))
    by reflexivity.
  assert (Hlen : (length [(0, 0)] < length [65; 66; 67]%N)%nat) by (simpl; lia).
  assert (Hbad : grid_read (w_grid (with_grid [[65; 88]; [88; 88]]%N ex_world)) (2, 0)
                 = None) by reflexivity.
  split; [reflexivity|]. split; [simpl; lia|]. split; [exact Hbad|].
  exact (commit_stops_at_unreadable_coordinate [(0, 0)] (2, 0) [(1, 1)] [65; 66; 67]%N
           ex_world (with_grid [[65; 88]; [88; 88]]%N ex_world) Hgood Hlen Hbad).
Defined.

(** ** The main program *)

Global Instance reading_le_antisymm : AntiSymm (=) reading_le.
Proof.
  intros [a b] [c d]. unfold reading_le. simpl. intros H1 H2.
  f_equal; lia.
Qed.

Lemma sorted_enumeration (l : list coord) (mask : gset coord) :
  l ≡ₚ elements mask -> sorted l = sorted_mask mask.
Proof.
  intros Hperm. unfold sorted_mask.
  apply (StronglySorted_unique reading_le); try apply sorted_StronglySorted.
  rewrite !sorted_Permutation. exact Hperm.
Qed.

Lemma sorted_mask_of_placement ps :
  NoDup ps -> StronglySorted reading_le ps ->
  sorted_mask (list_to_set ps) = ps.
Proof.
  intros Hnd Hso. unfold sorted_mask.
  apply (StronglySorted_unique reading_le); [apply sorted_StronglySorted | exact Hso |].
  rewrite sorted_Permutation. apply elements_list_to_set, Hnd.
Qed.

Lemma place_one_shaped fuel size word w ps w' :
  place_one fuel size word w = (Done ps, w') -> shaped size ps word.
Proof.
  unfold place_one. intros H.
  apply bind_Done in H as (ps0 & w1 & Hp & H).
  apply bind_Done in H as ([] & w2 & _ & H).
  apply bind_Done in H as ([] & w3 & _ & H).
  inversion H; subst.
  apply place_word_scattered_Done in Hp as [Hlen Hnd Hr Hso _].
  repeat split; assumption.
Qed.

Lemma place_words_shaped fuel size : forall WORDS masks wps w masks' wps' w',
  place_words fuel size WORDS masks wps w = (Done (masks', wps'), w') ->
  exists new,
    wps' = wps ++ new
    /\ masks' = masks ++ (list_to_set <$> new)
    /\ Forall2 (shaped size) new WORDS.
Proof.
  induction WORDS as [|word rest IH]; intros masks wps w masks' wps' w' H.
  - simpl in H. inversion H; subst. exists []. simpl.
    rewrite !app_nil_r. repeat split. constructor.
  - rewrite place_words_cons in H.
    apply bind_Done in H as (ps & w1 & H1 & H).
    apply place_one_shaped in H1.
    apply IH in H as (new & -> & -> & Hall).
    exists (ps :: new). rewrite <- !app_assoc. simpl.
    repeat split. constructor; assumption.
Qed.

Lemma grid_write_cells (P : char -> Prop) g rc ch g' :
  Forall (Forall P) g -> P ch ->
  grid_write g rc ch = Some g' -> Forall (Forall P) g'.
Proof.
  unfold grid_write, py_getitem, py_setitem. intros Hg Hch.
  destruct (py_index g (fst rc)) as [k|]; [|discriminate].
  destruct (g !! k) as [row|] eqn:Hrow; [|discriminate].
  destruct (py_index row (snd rc)) as [j|]; [|discriminate].
  intros H. inversion H; subst.
  apply Forall_insert; [exact Hg|].
  apply Forall_insert; [|exact Hch].
  rewrite Forall_forall in Hg. apply Hg. apply list_elem_of_lookup. eauto.
Qed.

Lemma apply_pairs_cells (P : char -> Prop) pairs : forall w r w',
  Forall (Forall P) (w_grid w) ->
  Forall (fun p => P (snd p)) pairs ->
  apply_pairs pairs w = (r, w') ->
  Forall (Forall P) (w_grid w').
Proof.
  induction pairs as [|[rc ch] rest IH]; intros w r w' Hg Hp H; simpl in H.
  - inversion H; subst. exact Hg.
  - apply Forall_cons in Hp as [Hch Hp]. simpl in Hch.
    unfold bind, grid_set in H.
    destruct (grid_write (w_grid w) rc ch) as [g1|] eqn:Hw.
    + apply (IH (with_grid g1 w) r w'); [|exact Hp | exact H].
      simpl. eapply grid_write_cells; eauto.
    + inversion H; subst. exact Hg.
Qed.

Lemma Forall_zip_snd {A B} (P : B -> Prop) (l : list A) (k : list B) :
  Forall P k -> Forall (fun p => P (snd p)) (zip l k).
Proof.
  revert k. induction l as [|x l IH]; intros [|y k] H; simpl; try constructor.
  - apply Forall_cons in H as [Hy _]. exact Hy.
  - apply Forall_cons in H as [_ Hk]. apply IH, Hk.
Qed.

Lemma place_one_cells (P : char -> Prop) fuel size word w ps w' :
  Forall (Forall P) (w_grid w) -> Forall P word ->
  place_one fuel size word w = (Done ps, w') ->
  Forall (Forall P) (w_grid w').
Proof.
  intros Hg Hword H. unfold place_one in H.
  apply bind_Done in H as (ps0 & w1 & Hp & H).
  apply bind_Done in H as ([] & w2 & Ha & H).
  apply bind_Done in H as ([] & w3 & Hu & H).
  inversion H; subst. unfold forbidden_update in Hu. inversion Hu; subst. simpl.
  apply place_word_scattered_read_only in Hp as (Hg1 & _ & _).
  eapply (apply_pairs_cells P); [| |exact Ha].
  - rewrite Hg1. exact Hg.
  - apply Forall_zip_snd, Hword.
Qed.

Lemma place_words_cells (P : char -> Prop) fuel size :
  forall WORDS masks wps w masks' wps' w',
    Forall (Forall P) (w_grid w) -> Forall (Forall P) WORDS ->
    place_words fuel size WORDS masks wps w = (Done (masks', wps'), w') ->
    Forall (Forall P) (w_grid w').
Proof.
  induction WORDS as [|word rest IH]; intros masks wps w masks' wps' w' Hg Hws H.
  - simpl in H. inversion H; subst. exact Hg.
  - rewrite place_words_cons in H.
    apply bind_Done in H as (ps & w1 & H1 & H).
    apply Forall_cons in Hws as [Hword Hrest].
    eapply IH; [| exact Hrest | exact H].
    eapply place_one_cells; eauto.
Qed.

(** A completed run of the main program, taken apart: the grid is drawn, and
    the placement loop starts on it with nothing occupied. *)
Lemma main_Done generator upper RANDOM_SEED size words fuel w masks wps w' :
  main generator upper RANDOM_SEED size words fuel w = (Done (masks, wps), w') ->
  exists w0,
    wf_grid size (w_grid w0)
    /\ Forall (Forall (fun ch => ch ∈ letters)) (w_grid w0)
    /\ w_forbidden w0 = ∅
    /\ place_words fuel size (map upper words) [] [] w0 = (Done (masks, wps), w').
Proof.
  unfold main. intros H.
  apply bind_Done in H as ([] & w1 & _ & H).
  apply bind_Done in H as (g & w2 & Hg & H).
  apply bind_Done in H as ([] & w3 & Hbg & H).
  apply bind_Done in H as ([] & w4 & Hbf & H).
  unfold bind_grid in Hbg. unfold bind_forbidden in Hbf.
  inversion Hbg; subst w3. inversion Hbf; subst w4. clear Hbg Hbf.
  destruct (generate_letter_grid_run size w1) as (g' & Hrun & Hwf & Hcells).
  rewrite Hrun in Hg. inversion Hg; subst g'.
  exists (with_forbidden ∅ (with_grid g w2)).
  split; [exact Hwf|]. split; [exact Hcells|]. split; [reflexivity | exact H].
Qed.

Lemma ex_main_run :
  main ex_generator ex_upper (Some 7) 2 [ex_AB; ex_BA] 3 ex_world
  = (Done (ex_masks, ex_wps), ex_main_end).
Proof. vm_compute. reflexivity. Qed.

(** After a completed run of the main program there is one placement and
    one mask per word, in the order of the word list. Each placement has the
    length of its word (in upper case), distinct coordinates inside the
    grid, in reading order; each mask is the set of the coordinates of its
    placement and has as many cells as the word has letters; and the set
    [forbidden] is the union of the masks. *)
Theorem main_masks_and_placements
        generator upper RANDOM_SEED size words fuel w masks wps w' :
  main generator upper RANDOM_SEED size words fuel w = (Done (masks, wps), w') ->
  Forall2 (shaped size) wps (map upper words)
  /\ masks = list_to_set <$> wps
  /\ Forall2 (fun (mask : gset coord) (word : str) => base.size mask = length word)
             masks (map upper words)
  /\ w_forbidden w' = ⋃ masks.
Proof.
  intros H. apply main_Done in H as (w0 & _ & _ & Hempty & H).
  pose proof (place_words_shaped _ _ _ _ _ _ _ _ _ H) as (new & Hwps & Hmasks & Hshaped).
  pose proof (place_words_occupancy _ _ _ _ _ _ _ _ _ H) as (new' & Hwps' & _ & _ & Hocc).
  simpl in Hwps, Hmasks, Hwps'. subst wps masks. subst new'.
  split; [exact Hshaped|]. split; [reflexivity|]. split.
  - apply Forall2_fmap_l. eapply Forall2_impl; [exact Hshaped|].
    intros ps word (Hlen & Hnd & _ & _). simpl.
    rewrite size_list_to_set by exact Hnd. exact Hlen.
  - rewrite Hocc, Hempty, union_empty_l_L. reflexivity.
Qed.

Lemma main_masks_and_placements_witness :
  main ex_generator ex_upper (Some 7) 2 [ex_AB; ex_BA] 3 ex_world
  = (Done (ex_masks, ex_wps), ex_main_end)
  /\ Forall2 (shaped 2) ex_wps (map ex_upper [ex_AB; ex_BA])
  /\ ex_masks
     = list_to_set <$> ex_wps
  /\ Forall2 (fun (mask : gset coord) (word : str) => base.size mask = length word)
             ex_masks
             (map ex_upper [ex_AB; ex_BA])
  /\ w_forbidden ex_main_end
     = ⋃ ex_masks.
Proof.
  split; [exact ex_main_run|].
  exact (main_masks_and_placements _ _ _ _ _ _ _ _ _ _ ex_main_run).
Defined.

(** After a completed run of the main program the grid still has [size] rows
    of [size] cells, and every cell holds a letter of the alphabet or a
    letter of one of the words (in upper case). *)
Theorem main_grid_cells generator upper RANDOM_SEED size words fuel w masks wps w' :
  main generator upper RANDOM_SEED size words fuel w = (Done (masks, wps), w') ->
  wf_grid size (w_grid w')
  /\ Forall (Forall (cell_ok (map upper words))) (w_grid w').
Proof.
  intros H. apply main_Done in H as (w0 & Hwf & Hcells & Hempty & H).
  split.
  - exact (inv_wf _ _ _ _
             (place_words_inv _ _ _ _ _ _ _ _ _ _ (run_inv_start _ _ Hwf Hempty) H)).
  - eapply (place_words_cells (cell_ok (map upper words))); [| |exact H].
    + eapply Forall_impl; [exact Hcells|]. intros row Hrow.
      eapply Forall_impl; [exact Hrow|]. intros ch Hch. left. exact Hch.
    + apply Forall_forall. intros word Hword.
      apply Forall_forall. intros ch Hch. right. eauto.
Qed.

Lemma main_grid_cells_witness :
  main ex_generator ex_upper (Some 7) 2 [ex_AB; ex_BA] 3 ex_world
  = (Done (ex_masks, ex_wps), ex_main_end)
  /\ wf_grid 2 (w_grid ex_main_end)
  /\ Forall (Forall (cell_ok (map ex_upper [ex_AB; ex_BA]))) (w_grid ex_main_end).
Proof.
  split; [exact ex_main_run|].
  exact (main_grid_cells _ _ _ _ _ _ _ _ _ _ ex_main_run).
Defined.

(** Every stencil spells its word: after a completed run of the main
    program, visiting the holes of the i-th mask in the order in which the
    exporters visit them (sorted by row, then column) and reading the grid
    there gives exactly the i-th word (in upper case); that order is the
    stored order of the word's placement. *)
Theorem main_stencils_spell_words
        generator upper RANDOM_SEED size words fuel w masks wps w' :
  main generator upper RANDOM_SEED size words fuel w = (Done (masks, wps), w') ->
  Forall2 (fun mask ps => sorted_mask mask = ps) masks wps
  /\ Forall2 (fun mask word => letter_at (w_grid w') (sorted_mask mask) word)
             masks (map upper words).
Proof.
  intros H.
  pose proof (main_words_hidden _ _ _ _ _ _ _ _ _ _ H) as Hhidden.
  apply main_Done in H as (w0 & _ & _ & _ & H).
  pose proof (place_words_shaped _ _ _ _ _ _ _ _ _ H) as (new & Hwps & Hmasks & Hshaped).
  simpl in Hwps, Hmasks. subst wps masks.
  assert (Horder : Forall2 (fun (mask : gset coord) ps => sorted_mask mask = ps)
                           (list_to_set <$> new) new).
  { apply Forall2_fmap_l. apply Forall2_same_length_lookup. split; [reflexivity|].
    intros i ps ps' Hps Hps'. assert (ps' = ps) by congruence. subst ps'. simpl.
    destruct (Forall2_lookup_l _ _ _ _ _ Hshaped Hps) as (word & _ & (_ & Hnd & _ & Hso)).
    apply sorted_mask_of_placement; assumption. }
  split; [exact Horder|].
  apply Forall2_fmap_l.
  apply Forall2_same_length_lookup. apply Forall2_same_length_lookup in Hhidden as [Hlen Hh].
  split; [exact Hlen|]. intros i ps word Hps Hword. simpl.
  destruct (Forall2_lookup_l _ _ _ _ _ Hshaped Hps) as (word' & _ & (_ & Hnd & _ & Hso)).
  rewrite (sorted_mask_of_placement ps Hnd Hso). exact (Hh i ps word Hps Hword).
Qed.

Lemma main_stencils_spell_words_witness :
  main ex_generator ex_upper (Some 7) 2 [ex_AB; ex_BA] 3 ex_world
  = (Done (ex_masks, ex_wps), ex_main_end)
  /\ Forall2 (fun mask ps => sorted_mask mask = ps)
             ex_masks
             ex_wps
  /\ Forall2 (fun mask word => letter_at (w_grid ex_main_end) (sorted_mask mask) word)
             ex_masks
             (map ex_upper [ex_AB; ex_BA]).
Proof.
  split; [exact ex_main_run|].
  exact (main_stencils_spell_words _ _ _ _ _ _ _ _ _ _ ex_main_run).
Defined.

(** Every configured word is hidden in the grid that the main program hands
    over: after a completed run, reading the final grid at the coordinates
    of the i-th placement, in their stored order, gives the i-th word (in
    upper case), for every word and not only for the last one placed. *)
Theorem main_hides_every_word generator upper RANDOM_SEED size words fuel w masks wps w' :
  main generator upper RANDOM_SEED size words fuel w = (Done (masks, wps), w') ->
  Forall2 (letter_at (w_grid w')) wps (map upper words).
Proof. apply main_words_hidden. Qed.

Lemma main_hides_every_word_witness :
  main ex_generator ex_upper (Some 7) 2 [ex_AB; ex_BA] 3 ex_world
  = (Done (ex_masks, ex_wps), ex_main_end)
  /\ Forall2 (letter_at (w_grid ex_main_end)) ex_wps (map ex_upper [ex_AB; ex_BA]).
Proof.
  split; [exact ex_main_run|].
  exact (main_hides_every_word _ _ _ _ _ _ _ _ _ _ ex_main_run).
Defined.

(** ** The Cricut export *)

Lemma string_length_app (s t : string) :
  String.length (s +:+ t) = (String.length s + String.length t)%nat.
Proof.
  induction s as [|a s IH]; [reflexivity|].
  change (String a s +:+ t) with (String a (s +:+ t)).
  cbn [String.length]. rewrite IH. reflexivity.
Qed.

Lemma string_app_inj_r (u : string) : forall s t : string, s +:+ u = t +:+ u -> s = t.
Proof.
  induction s as [|a s IH]; intros [|b t] H.
  - reflexivity.
  - apply (f_equal String.length) in H.
    rewrite !string_length_app in H. cbn [String.length] in H. lia.
  - apply (f_equal String.length) in H.
    rewrite !string_length_app in H. cbn [String.length] in H. lia.
  - change (String a (s +:+ u) = String b (t +:+ u)) in H.
    injection H as -> H. f_equal. apply IH, H.
Qed.

Global Instance cricut_filename_inj base : Inj (=) (=) (cricut_filename base).
Proof.
  intros i j H. unfold cricut_filename in H.
  apply (inj (String.append base)) in H.
  apply (inj (String.append "_mask_")) in H.
  apply string_app_inj_r in H. apply (inj pretty) in H. exact H.
Qed.

Lemma cricut_files_names size base : forall masks idx,
  (cricut_files masks size base idx).*1
  = cricut_filename base <$> seqZ idx (Z.of_nat (length masks)).
Proof.
  induction masks as [|mask rest IH]; intros idx; [reflexivity|].
  cbn [cricut_files fmap list_fmap fst length].
  rewrite Nat2Z.inj_succ, seqZ_cons by lia.
  rewrite fmap_cons. f_equal.
  replace (Z.pred (Z.succ (Z.of_nat (length rest)))) with (Z.of_nat (length rest)) by lia.
  apply IH.
Qed.

Lemma length_grid_bind {A} (f : coord -> A) (l l' : list Z) :
  length (r ← l; c ← l'; [f (r, c)]) = (length l * length l')%nat.
Proof.
  assert (Hin : forall r : Z, length (c ← l'; [f (r, c)]) = length l').
  { intros r. induction l' as [|x k IHk]; [reflexivity|].
    rewrite bind_cons. simpl. f_equal. exact IHk. }
  induction l as [|x l IHl]; [reflexivity|].
  rewrite bind_cons, length_app, IHl, Hin. reflexivity.
Qed.

(** The export writes one file per mask, named after the base name and the
    number of the mask counted from 1, and no two of the files have the same
    name: no mask overwrites another. *)
Theorem cricut_one_file_per_mask masks size base :
  (save_masks_for_cricut masks size base).*1
  = cricut_filename base <$> seqZ 1 (Z.of_nat (length masks))
  /\ NoDup (save_masks_for_cricut masks size base).*1.
Proof.
  unfold save_masks_for_cricut. rewrite cricut_files_names. split; [reflexivity|].
  apply (NoDup_fmap_2 (cricut_filename base)), NoDup_seqZ.
Qed.

(** The SVG of a mask has six fixed lines (four header lines, the outer cut
    square and the closing tag), one line per cell of the grid, and one cut
    rectangle per cell of the mask, whether or not that cell lies in the
    grid. *)
Theorem cricut_svg_line_count mask size :
  length (cricut_svg mask size)
  = (6 + Z.to_nat size * Z.to_nat size + base.size mask)%nat.
Proof.
  unfold cricut_svg. rewrite !length_app, length_grid_bind, length_fmap, !length_seqZ.
  unfold sorted_mask. rewrite sorted_length. unfold base.size, set_size. simpl. lia.
Qed.

(** The export composed with the main program: after a completed run, the
    text of the i-th file is the header and the grid cells followed by
    exactly the cut rectangles of the coordinates of the i-th placement, in
    their stored reading order, and the closing tag. *)
Theorem cricut_holes_follow_placements
        generator upper RANDOM_SEED size words fuel w masks wps w' base :
  main generator upper RANDOM_SEED size words fuel w = (Done (masks, wps), w') ->
  (save_masks_for_cricut masks size base).*2
  = (fun ps => String.concat nl
                 (cricut_header size
                  ++ (r ← seqZ 0 size; c ← seqZ 0 size; [cricut_cell (r, c)])
                  ++ (cricut_hole <$> ps)
                  ++ ["</svg>"%string])) <$> wps.
Proof.
  intros H. apply main_Done in H as (w0 & _ & _ & _ & H).
  pose proof (place_words_shaped _ _ _ _ _ _ _ _ _ H) as (new & Hwps & Hmasks & Hshaped).
  simpl in Hwps, Hmasks. subst wps masks. clear H.
  unfold save_masks_for_cricut. generalize 1 as idx.
  apply Forall2_Forall_l with (Q := fun ps => NoDup ps /\ StronglySorted reading_le ps)
    in Hshaped.
  - induction Hshaped as [|ps rest [Hnd Hso] _ IH]; intros idx; [reflexivity|].
    rewrite !fmap_cons. cbn [cricut_files fmap list_fmap snd]. f_equal; [|apply IH].
    unfold cricut_svg. rewrite (sorted_mask_of_placement ps Hnd Hso). reflexivity.
  - apply Forall_forall. intros word _ ps (_ & Hnd & _ & Hso). auto.
Qed.

Lemma cricut_holes_follow_placements_witness :
  main ex_generator ex_upper (Some 7) 2 [ex_AB; ex_BA] 3 ex_world
  = (Done (ex_masks, ex_wps), ex_main_end)
  /\ (save_masks_for_cricut ex_masks 2 "out")%string.*2
     = (fun ps => String.concat nl
                    (cricut_header 2
                     ++ (r ← seqZ 0 2; c ← seqZ 0 2; [cricut_cell (r, c)])
                     ++ (cricut_hole <$> ps)
                     ++ ["</svg>"%string])) <$> ex_wps.
Proof.
  split; [exact ex_main_run|].
  exact (cricut_holes_follow_placements _ _ _ _ _ _ _ _ _ _ "out"%string ex_main_run).
Defined.
